(** * The archive backend: zip and squashfs archivers

    A shallow embedding of [backend/archive/zip/zip.go] and
    [backend/archive/squashfs/squashfs.go]: the namespace build
    ([readZip], [readSquashfs]), the query surface ([List], [NewObject]),
    the windowed reader ([Open]), the append-only writer ([Put]), the
    constructor ([New]) and [Hash].

    Go strings are [string]; [int64] values are [Z] (no operation of the
    embedded code can leave the 64-bit range on the inputs considered);
    a Go map is a [gmap]; a byte stream is the list of bytes it yields
    before end-of-data. *)

From Stdlib Require Import ZArith Ascii String List Lia.
From Stdlib.Strings Require Import Byte.
From stdpp Require Import gmap strings list fin_maps.

Local Open Scope string_scope.

(** ** Go's [strings] package, as far as the backends use it *)

Module GoStrings.

Definition is_slash (c : ascii) : bool := Ascii.eqb c "/".

(** [strings.HasPrefix(s, prefix)] *)
Fixpoint HasPrefix (s prefix : string) : bool :=
  match prefix, s with
  | EmptyString, _ => true
  | String p ps, String c cs => if Ascii.eqb c p then HasPrefix cs ps else false
  | String _ _, EmptyString => false
  end.

Fixpoint drop_chars (n : nat) (s : string) : string :=
  match n, s with
  | O, _ => s
  | S n', String _ r => drop_chars n' r
  | S _, EmptyString => EmptyString
  end.

(** [strings.TrimPrefix(s, prefix)]: [s] without the leading [prefix],
    and [s] itself when it does not start with [prefix]. *)
Definition TrimPrefix (s prefix : string) : string :=
  if HasPrefix s prefix then drop_chars (String.length prefix) s else s.

(** [strings.HasSuffix(s, suffix)] *)
Fixpoint HasSuffix (s suffix : string) : bool :=
  String.eqb s suffix
  || match s with
     | EmptyString => false
     | String _ r => HasSuffix r suffix
     end.

Fixpoint TrimLeftSlash (s : string) : string :=
  match s with
  | EmptyString => EmptyString
  | String c r => if is_slash c then TrimLeftSlash r else s
  end.

Fixpoint TrimRightSlash (s : string) : string :=
  match s with
  | EmptyString => EmptyString
  | String c r =>
      match TrimRightSlash r with
      | EmptyString => if is_slash c then EmptyString else String c EmptyString
      | r' => String c r'
      end
  end.

(** [strings.Trim(s, "/")]: every call site passes the cutset ["/"]. *)
Definition Trim (s : string) : string := TrimRightSlash (TrimLeftSlash s).

End GoStrings.

(** ** Go's [path] package, as far as the backends use it *)

Module GoPath.
Import GoStrings.

(** The elements of a path between its slashes: ["a//b"] has the
    elements ["a"], [""] and ["b"]. *)
Fixpoint split (s : string) : list string :=
  match s with
  | EmptyString => [EmptyString]
  | String c r =>
      if is_slash c then EmptyString :: split r
      else match split r with
           | h :: t => String c h :: t
           | [] => [String c EmptyString]
           end
  end.

Fixpoint join (l : list string) : string :=
  match l with
  | [] => EmptyString
  | [x] => x
  | x :: r => x ++ String "/" (join r)
  end.

(** One element of [path.Clean]'s scan. [out] holds the elements
    written so far, the last one first. Empty and [.] elements are
    dropped; [..] removes the last written element when there is one
    to backtrack over, is dropped at the top of a rooted path, and is
    kept otherwise. *)
Definition clean_step (rooted : bool) (out : list string) (elem : string)
  : list string :=
  if String.eqb elem "" then out
  else if String.eqb elem "." then out
  else if String.eqb elem ".." then
    match out with
    | top :: rest =>
        if String.eqb top ".." then (if rooted then out else elem :: out)
        else rest
    | [] => if rooted then out else [elem]
    end
  else elem :: out.

Definition is_rooted (p : string) : bool :=
  match p with
  | String c _ => is_slash c
  | EmptyString => false
  end.

(** [path.Clean(path)] *)
Definition Clean (p : string) : string :=
  if String.eqb p "" then "."
  else
    let rooted := is_rooted p in
    let out := fold_left (clean_step rooted) (split p) [] in
    let body := join (rev out) in
    if rooted then String "/" body
    else if String.eqb body "" then "." else body.

Fixpoint drop_empty (elem : list string) : list string :=
  match elem with
  | [] => []
  | e :: r => if String.eqb e "" then drop_empty r else elem
  end.

(** [path.Join(elem...)]: the elements from the first non-empty one on
    are joined with slashes and cleaned; the result is empty when every
    element is. *)
Definition Join (elem : list string) : string :=
  match drop_empty elem with
  | [] => ""
  | l => Clean (join l)
  end.

Fixpoint has_slash (s : string) : bool :=
  match s with
  | EmptyString => false
  | String c r => is_slash c || has_slash r
  end.

(** The first result of [path.Split]: [path] up to and including its
    last slash. *)
Fixpoint dir_part (s : string) : string :=
  match s with
  | EmptyString => EmptyString
  | String c r => if is_slash c || has_slash r then String c (dir_part r) else EmptyString
  end.

(** [path.Dir(path)] *)
Definition Dir (p : string) : string := Clean (dir_part p).

Fixpoint last_elem (s : string) : string :=
  match s with
  | EmptyString => EmptyString
  | String c r => if has_slash s then last_elem r else s
  end.

(** [path.Base(path)] *)
Definition Base (p : string) : string :=
  if String.eqb p "" then "."
  else
    let p1 := TrimRightSlash p in
    let p2 := last_elem p1 in
    if String.eqb p2 "" then "/" else p2.

End GoPath.


(** ** Errors and results *)

Inductive error : Type :=
| ErrorDirNotFound
| ErrorObjectNotFound
| ErrorNotAFile
| ErrorIsFile
| ErrorNotImplemented
| ErrUnsupported
| EOF
| ErrNotExist
| ErrMsg (msg : string)
| Wrap (msg : string) (inner : error).

(** What a Go call ends in: a value, an error, or a run-time panic. *)
Inductive res (A : Type) : Type :=
| Ok (a : A)
| Err (e : error)
| Panic.

Arguments Ok {A} a.
Arguments Err {A} e.
Arguments Panic {A}.

Definition is_Ok {A} (r : res A) : bool :=
  match r with Ok _ => true | _ => false end.

Definition is_Err {A} (r : res A) : bool :=
  match r with Err _ => true | _ => false end.

(** ** The [fs/dirtree] package

    [dirtree] belongs to the repository but is not among the sources at
    hand; its operations are modelled after the design document. *)

Module dirtree.

(** [fs.Directory], as made by [fs.NewDir(remote, modTime)]; times are
    seconds. *)
Record Directory : Type := NewDir { dir_remote : string; dir_modTime : Z }.

(** [fs.DirEntry]: a directory or a backend object. *)
Inductive DirEntry (T : Type) : Type :=
| EDir (d : Directory)
| EObj (o : T).

Arguments EDir {T} d.
Arguments EObj {T} o.

(** The part of the [fs.DirEntry] interface the tree needs. *)
Class Remoter (T : Type) := Remote : T -> string.

(** Modelled from the spec: [dirtree.DirTree], "a mapping from
    normalized directory path (including the empty string for the
    configured root) to the ordered/unordered set of direct children". *)
Abbreviation DirTree T := (gmap string (list (DirEntry T))).

Section tree.
Context {T : Type} `{Remoter T}.

Definition entry_Remote (e : DirEntry T) : string :=
  match e with
  | EDir d => dir_remote d
  | EObj o => Remote o
  end.

Definition is_dir_entry (e : DirEntry T) : bool :=
  match e with EDir _ => true | EObj _ => false end.

(** Modelled from the spec: [dirtree.New], the tree with no directory. *)
Definition New : DirTree T := ∅.

(** Modelled from the spec: the parent of a path, "the immediate parent
    directory", with the root written as the empty string. *)
Definition parentDir (entryPath : string) : string :=
  let dirPath := GoPath.Dir entryPath in
  if String.eqb dirPath "." then "" else dirPath.

Definition children (dt : DirTree T) (dirPath : string) : list (DirEntry T) :=
  default [] (dt !! dirPath).

Definition append_child (dirPath : string) (entry : DirEntry T) (dt : DirTree T)
  : DirTree T :=
  <[dirPath := (children dt dirPath ++ [entry])%list]> dt.

(** Modelled from the spec: [DirTree.Add], "insert a file node at that
    path": the entry becomes a child of its parent directory; no
    ancestor is created. *)
Definition Add (entry : DirEntry T) (dt : DirTree T) : DirTree T :=
  append_child (parentDir (entry_Remote entry)) entry dt.

(** Modelled from the spec: [DirTree.AddDir], "insert a directory node at
    that path": the directory becomes a child of its parent and a key of
    its own; the root itself ("a directory marker for the root") adds
    nothing. *)
Definition AddDir (entry : DirEntry T) (dt : DirTree T) : DirTree T :=
  let dirPath := entry_Remote entry in
  if String.eqb dirPath "" then dt
  else
    let dt' := Add entry dt in
    match dt' !! dirPath with
    | Some _ => dt'
    | None => <[dirPath := []]> dt'
    end.

(** Modelled from the spec: [DirTree.Find], "look up the immediate parent
    directory, scan its children for a matching file name". *)
Definition Find (dt : DirTree T) (filePath : string) : string * option (DirEntry T) :=
  let parentPath := parentDir filePath in
  (parentPath,
   List.find (fun entry => String.eqb (entry_Remote entry) filePath)
             (children dt parentPath)).

(** The directories recorded as children anywhere in the tree. *)
Definition dir_remotes (es : list (DirEntry T)) : list string :=
  map entry_Remote (List.filter is_dir_entry es).

Definition all_dirs (dt : DirTree T) : gset string :=
  list_to_set (flat_map (fun kv => dir_remotes (snd kv)) (map_to_list dt)).

(** Modelled from the spec: the walk from one path up to [root],
    "synthesize any missing ancestor directory nodes". [dirs] holds the
    directories already recorded in a parent; a path that is neither the
    root nor recorded gets a directory entry (stamped [now]) in its
    parent, and the walk goes on from the parent. [fuel] bounds the
    number of paths visited. *)
Fixpoint checkParent (now : Z) (fuel : nat) (root dirPath : string)
  (st : DirTree T * gset string) : DirTree T * gset string :=
  match fuel with
  | O => st
  | S fuel' =>
      if String.eqb dirPath root then st
      else if decide (dirPath ∈ st.2) then st
      else
        let parentPath := parentDir dirPath in
        checkParent now fuel' root parentPath
          (append_child parentPath (EDir (NewDir dirPath now)) st.1,
           {[dirPath]} ∪ st.2)
  end.

(** A path of length [n] has at most [n] proper ancestors, and the walk
    looks at one more path when it reaches a path that is its own
    parent. *)
Definition walk_fuel (dirPath : string) : nat := String.length dirPath + 2.

(** Modelled from the spec: [DirTree.CheckParents], "after processing all
    entries, walk every inserted path and synthesize any missing ancestor
    directory nodes". *)
Definition CheckParents (now : Z) (root : string) (dt : DirTree T) : DirTree T :=
  (fold_left
     (fun st dirPath => checkParent now (walk_fuel dirPath) root dirPath st)
     (map fst (map_to_list dt))
     (dt, all_dirs dt)).1.

(** Insertion into a list sorted by name, after the entries with the same
    name. *)
Fixpoint insert_by_name (e : DirEntry T) (es : list (DirEntry T))
  : list (DirEntry T) :=
  match es with
  | [] => [e]
  | x :: r =>
      if String.ltb (entry_Remote e) (entry_Remote x) then e :: es
      else x :: insert_by_name e r
  end.

Definition sort_by_name (es : list (DirEntry T)) : list (DirEntry T) :=
  fold_left (fun acc e => insert_by_name e acc) es [].

(** Modelled from the spec: [DirTree.Sort], "a deterministic ordering of
    children within each directory (stable sort by name)". *)
Definition Sort (dt : DirTree T) : DirTree T := sort_by_name <$> dt.

End tree.

End dirtree.

(** ** Collaborators: [io], [lib/readers], [fs] options, [vfs] *)

(** A reader is the list of the bytes it has yet to yield. *)
Definition Reader : Type := list byte.

Module GoIO.

(** [io.CopyN(io.Discard, rc, n)]: [n] bytes are read and dropped; the
    copy fails with [io.EOF] when the reader ends before that. *)
Definition CopyN_Discard (rc : Reader) (n : Z) : res Reader :=
  if (Z.of_nat (length rc) <? n)%Z then Err EOF
  else Ok (drop (Z.to_nat n) rc).

(** [io.CopyN(w, in, n)] as seen from the source: the bytes handed to
    the sink, and [io.EOF] when the source ended before [n] bytes. *)
Definition CopyN (src : Reader) (n : Z) : list byte * option error :=
  (take (Z.to_nat n) src,
   if (Z.of_nat (length src) <? n)%Z then Some EOF else None).

End GoIO.

Module readers.

(** Modelled from the spec: [readers.NewLimitedReadCloser(rc, limit)],
    "wrap the stream so that at most [limit] bytes are yielded ..., then
    the stream reports end-of-data even if the underlying source has
    more"; a negative limit is no limit, the convention [Open] itself
    follows for an unset limit. *)
Definition NewLimitedReadCloser (rc : Reader) (limit : Z) : Reader :=
  if (limit <? 0)%Z then rc else take (Z.to_nat limit) rc.

End readers.

Module fs.

(** The open options the backends look at. *)
Inductive OpenOption : Type :=
| SeekOption (Offset : Z)
| RangeOption (Start Finish : Z)
| OtherOption (mandatory : bool).

(** Modelled from the spec: [RangeOption.Decode(size)] turns a byte range
    into the design's [(offset, limit)] pair, where "at most [limit]
    bytes are yielded after the offset" and [-1] stands for no limit. A
    range [Start-Finish] is inclusive; a negative [Start] asks for the
    last [Finish] bytes. *)
Definition Decode (Start Finish size : Z) : Z * Z :=
  if (0 <=? Start)%Z then
    (Start, if (0 <=? Finish)%Z then (Finish - Start + 1)%Z else (-1)%Z)
  else
    (if (0 <=? Finish)%Z then (size - Finish)%Z else 0%Z, (-1)%Z).

(** The option loop that opens both [Object.Open] methods. *)
Definition decodeOptions (size : Z) (options : list OpenOption) : Z * Z :=
  fold_left
    (fun (acc : Z * Z) option =>
       match option with
       | SeekOption x => (x, acc.2)
       | RangeOption s e => Decode s e size
       | OtherOption _ => acc
       end)
    options (0%Z, (-1)%Z).

(** What [fs.ObjectInfo] tells [Put] about the source. *)
Record ObjectInfo : Type :=
  { src_Remote : string; src_Size : Z; src_ModTime : Z }.

(** [hash.Type] *)
Inductive HashType : Type := CRC32 | MD5 | SHA1 | HashNone.

End fs.

Module vfs.

(** A [vfs.Node] for the archive file. [node_Open] is the outcome of
    opening it read-only, [node_entries] what the archive decoder makes
    of its bytes: the decoders are collaborators of the backends. *)
Record Node (E : Type) : Type :=
  { node_IsDir : bool;
    node_Size : Z;
    node_Open : option error;
    node_entries : res (list E) }.

Arguments node_IsDir {E} n.
Arguments node_Size {E} n.
Arguments node_Open {E} n.
Arguments node_entries {E} n.

(** The outcome of [VFS.Stat(remote)]: a node, or a nil node with an
    error, which [os.IsNotExist] recognises or not. *)
Inductive StatResult (E : Type) : Type :=
| StatFound (n : Node E)
| StatNotExist
| StatFailed (e : error).

Arguments StatFound {E} n.
Arguments StatNotExist {E}.
Arguments StatFailed {E} e.

End vfs.

(** ** What [readZip] and [readSquashfs] do to every entry path *)

Module archive.
Import GoStrings GoPath.

(** The [if f.root != ""] block of both loops: [None] when the entry is
    skipped, otherwise the path relative to [root]. *)
Definition trimRoot (root remote : string) : option string :=
  if negb (String.eqb root "") then
    if negb (HasPrefix remote root) then None
    else if String.eqb remote root then Some ""
    else Some (TrimPrefix remote (root ++ "/"))
  else Some remote.

(** The path of an entry under [prefix], from the trimmed entry path. *)
Definition prefixed (prefix trimmed : string) : string :=
  Join [prefix; if String.eqb trimmed "." then "" else trimmed].

(** [Fs.strip] of both backends: the archive prefix is taken off
    [remote]. *)
Definition stripPrefix (prefix prefixSlash remote : string) : res string :=
  if String.eqb remote prefix then Ok ""
  else if negb (HasPrefix remote prefixSlash) then
    Err (ErrMsg "path is not in archive")
  else Ok (drop_chars (String.length prefixSlash) remote).

End archive.

(** ** [backend/archive/zip] *)

Module zip.
Import GoStrings GoPath dirtree fs vfs archive.

(** [zip.Store] and [zip.Deflate] *)
Inductive Method : Type := Store | Deflate.

(** [zip.FileHeader], the fields the backend reads or writes. *)
Record FileHeader : Type :=
  { fh_Name : string;
    fh_Method : Method;
    fh_Modified : Z;
    fh_UncompressedSize64 : Z;
    fh_CRC32 : Z }.

(** [zip.File]: its header, and the outcome of [File.Open], the
    decompressed content. *)
Record File : Type :=
  { file_FileHeader : FileHeader;
    file_Open : res Reader }.

(** [Object]. The back pointer [f] is left out: the methods that follow
    it take the [Fs] as an argument. An object made by [Put] has no
    [file]. *)
Record Object : Type :=
  { o_remote : string;
    o_fh : FileHeader;
    o_file : option File }.

#[global] Instance Object_Remoter : Remoter Object := o_remote.

(** What has been written to a file of the wrapped filesystem: bytes
    from before the write session, and the records of the zip encoder. *)
Inductive Chunk : Type :=
| Stale (b : byte)
| LocalHeader (name : string) (method : Method)
| FileData (method : Method) (data : list byte)
| DataDescriptor (written : Z)
| CentralHeader (name : string) (method : Method).

(** [zip.Writer]: the handle it writes to (the path it was opened on),
    the headers of its directory (pointers into the heap), and the entry
    being written with the compressor chosen for it. *)
Record Writer : Type :=
  { zw_handle : string;
    zw_dir : list nat;
    zw_last : option Method;
    zw_count : Z }.

(** The world around the adapter: the files of the wrapped filesystem,
    the paths [OpenFile] was called on (always with
    [O_WRONLY|O_CREATE|O_TRUNC]), the [FileHeader]s allocated by [Put]
    and shared with the encoder, and the number of exit hooks. *)
Record World : Type :=
  { files : gmap string (list Chunk);
    opened : list string;
    heap : list FileHeader;
    atexit : nat }.

(** [Fs], the fields the modelled methods use. [dt = None] is the nil
    map of an adapter that read no archive. *)
Record Fs : Type :=
  { f_node : option (Node File);
    f_remote : string;
    f_prefix : string;
    f_prefixSlash : string;
    f_root : string;
    f_dt : option (DirTree Object);
    f_wh : option string;
    f_zw : option Writer }.

Definition set_dt (f : Fs) (dt : DirTree Object) : Fs :=
  {| f_node := f_node f; f_remote := f_remote f; f_prefix := f_prefix f;
     f_prefixSlash := f_prefixSlash f; f_root := f_root f;
     f_dt := Some dt; f_wh := f_wh f; f_zw := f_zw f |}.

Definition set_writer (f : Fs) (wh : option string) (zw : option Writer) : Fs :=
  {| f_node := f_node f; f_remote := f_remote f; f_prefix := f_prefix f;
     f_prefixSlash := f_prefixSlash f; f_root := f_root f;
     f_dt := f_dt f; f_wh := wh; f_zw := zw |}.

(** The path of a zip entry before [root] is applied (lines 189-193). *)
Definition entryPath (prefix : string) (file : File) : string :=
  prefixed prefix (Trim (Clean (fh_Name (file_FileHeader file)))).

Definition mkObject (remote : string) (file : File) : Object :=
  {| o_remote := remote; o_fh := file_FileHeader file; o_file := Some file |}.

(** The loop of [readZip] over [zr.File]; the flag is [singleObject]. *)
Fixpoint readZip_loop (prefix root : string) (zrFile : list File)
  (dt : DirTree Object) : DirTree Object * bool :=
  match zrFile with
  | [] => (dt, false)
  | file :: rest =>
      match trimRoot root (entryPath prefix file) with
      | None => readZip_loop prefix root rest dt
      | Some remote =>
          if HasSuffix (fh_Name (file_FileHeader file)) "/" then
            readZip_loop prefix root rest
              (AddDir (EDir (NewDir remote (fh_Modified (file_FileHeader file)))) dt)
          else if String.eqb remote "" then
            (Add (EObj (mkObject (Base root) file)) New, true)
          else
            readZip_loop prefix root rest (Add (EObj (mkObject remote file)) dt)
      end
  end.

(** The tree [readZip] stores in [f.dt], and [singleObject]. [now] is
    the clock read for synthesized directories. *)
Definition buildZip (now : Z) (prefix root : string) (zrFile : list File)
  : DirTree Object * bool :=
  let r := readZip_loop prefix root zrFile New in
  (Sort (CheckParents now "" r.1), r.2).

(** [Fs.readZip] *)
Definition readZip (now : Z) (f : Fs) : res (Fs * bool) :=
  match f_node f with
  | None => Err ErrorDirNotFound
  | Some node =>
      if (node_Size node <? 0)%Z then
        Err (ErrMsg "can't read from zip file with unknown size")
      else
        match node_Open node with
        | Some e => Err (Wrap "failed to open zip file" e)
        | None =>
            match node_entries node with
            | Err e => Err (Wrap "failed to read zip file" e)
            | Panic => Panic
            | Ok zrFile =>
                let r := buildZip now (f_prefix f) (f_root f) zrFile in
                Ok (set_dt f r.1, r.2)
            end
        end
  end.

(** [New]: the adapter and the error returned with it
    ([fs.ErrorIsFile] comes with an adapter). *)
Definition New (now : Z) (stat : StatResult File) (remote prefix root : string)
  : res (Fs * option error) :=
  match stat with
  | StatFailed e => Err (Wrap "failed to find object" e)
  | _ =>
      let node := match stat with StatFound n => Some n | _ => None end in
      if match node with Some n => node_IsDir n | None => false end then
        Err (ErrMsg "can't unzip a directory")
      else
        let f := {| f_node := node; f_remote := remote; f_prefix := prefix;
                    f_prefixSlash := prefix ++ "/"; f_root := root;
                    f_dt := None; f_wh := None; f_zw := None |} in
        match node with
        | None => Ok (f, None)
        | Some _ =>
            match readZip now f with
            | Err e => Err (Wrap "failed to open zip file" e)
            | Panic => Panic
            | Ok (f', singleObject) =>
                Ok (f', if singleObject then Some ErrorIsFile else None)
            end
        end
  end.

(** [Fs.List] *)
Definition List (f : Fs) (dir : string) : res (list (DirEntry Object)) :=
  match f_dt f with
  | None => Err ErrorDirNotFound
  | Some dt =>
      match dt !! dir with
      | Some entries => Ok entries
      | None => Err ErrorDirNotFound
      end
  end.

(** [Fs.NewObject] *)
Definition NewObject (f : Fs) (remote : string) : res Object :=
  match f_dt f with
  | None => Err ErrorObjectNotFound
  | Some dt =>
      match (Find dt remote).2 with
      | None => Err ErrorObjectNotFound
      | Some (EObj o) => Ok o
      | Some (EDir _) => Err ErrorNotAFile
      end
  end.

(** [Object.Size] *)
Definition Size (o : Object) : Z := fh_UncompressedSize64 (o_fh o).

Definition hex_digit (d : Z) : ascii :=
  match d with
  | 0 => "0" | 1 => "1" | 2 => "2" | 3 => "3" | 4 => "4" | 5 => "5"
  | 6 => "6" | 7 => "7" | 8 => "8" | 9 => "9" | 10 => "a" | 11 => "b"
  | 12 => "c" | 13 => "d" | 14 => "e" | _ => "f"
  end%Z%char.

Fixpoint hex_digits (n : nat) (z : Z) (acc : string) : string :=
  match n with
  | O => acc
  | S n' => hex_digits n' (z / 16) (String (hex_digit (z mod 16)) acc)
  end.

(** [fmt.Sprintf("%08x", crc)] for a 32-bit checksum. *)
Definition hex08 (crc : Z) : string := hex_digits 8 (crc mod 2 ^ 32) "".

(** [Object.Hash], with the [Fs] the object belongs to. *)
Definition Hash (f : Fs) (o : Object) (ht : HashType) : res string :=
  match ht with
  | CRC32 =>
      match f_dt f with
      | None => Ok ""
      | Some _ => Ok (hex08 (fh_CRC32 (o_fh o)))
      end
  | _ => Err ErrUnsupported
  end.

(** [Object.Open] from [o.file.Open()] on, with the [offset] and [limit]
    the option loop has left. *)
Definition openAt (o : Object) (offset limit : Z) : res Reader :=
  match o_file o with
  | None => Panic
  | Some file =>
      match file_Open file with
      | Err e => Err e
      | Panic => Panic
      | Ok rc =>
          match (if (0 <? offset)%Z then GoIO.CopyN_Discard rc offset else Ok rc) with
          | Err e => Err e
          | Panic => Panic
          | Ok rc' =>
              if (0 <=? limit)%Z then
                Ok (readers.NewLimitedReadCloser rc' (limit - offset))
              else Ok rc'
          end
      end
  end.

(** [Object.Open] *)
Definition Open (o : Object) (options : list OpenOption) : res Reader :=
  let ol := decodeOptions (Size o) options in
  openAt o ol.1 ol.2.

(** *** The writer *)

(** What the collaborators answer during one [Put]: the outcome of
    [vfs.OpenFile] and of [zip.Writer.CreateHeader]. The sink accepts
    every write. *)
Record PutEnv : Type :=
  { env_OpenFile : option error;
    env_CreateHeader : option error }.

Definition write_chunks (path : string) (cs : list Chunk) (w : World) : World :=
  {| files := <[path := (default [] (files w !! path) ++ cs)%list]> (files w);
     opened := opened w; heap := heap w; atexit := atexit w |}.

(** [vfs.OpenFile(remote, O_WRONLY|O_CREATE|O_TRUNC, 0777)] succeeding:
    the call is recorded and the file is created or emptied. *)
Definition OpenFile_trunc (path : string) (w : World) : World :=
  {| files := <[path := []]> (files w);
     opened := (opened w ++ [path])%list; heap := heap w; atexit := atexit w |}.

Definition OpenFile_failed (path : string) (w : World) : World :=
  {| files := files w;
     opened := (opened w ++ [path])%list; heap := heap w; atexit := atexit w |}.

Definition register_atexit (w : World) : World :=
  {| files := files w; opened := opened w; heap := heap w;
     atexit := S (atexit w) |}.

(** [zip.NewWriter(wh)] *)
Definition NewWriter (wh : string) : Writer :=
  {| zw_handle := wh; zw_dir := []; zw_last := None; zw_count := 0 |}.

(** [zip.FileInfoHeader(fileInfo{src})]: a fresh header with the name,
    size and time of the source; the method is left at its zero value,
    [Store]. The result is the pointer to it. *)
Definition FileInfoHeader (src : ObjectInfo) (w : World) : World * nat :=
  ({| files := files w; opened := opened w;
      heap := (heap w ++ [{| fh_Name := src_Remote src; fh_Method := Store;
                             fh_Modified := src_ModTime src;
                             fh_UncompressedSize64 := src_Size src;
                             fh_CRC32 := 0 |}])%list;
      atexit := atexit w |},
   length (heap w)).

Definition header_at (w : World) (p : nat) : FileHeader :=
  default {| fh_Name := ""; fh_Method := Store; fh_Modified := 0;
             fh_UncompressedSize64 := 0; fh_CRC32 := 0 |} (heap w !! p).

(** Closing the entry being written: its data descriptor goes out. The
    checksum and the sizes that the encoder then writes back into the
    entry's header are left out, and so is the writer that refuses data
    for a name ending in a slash. The properties of the directory
    compare headers by name, method and time, which closing leaves as
    they are. *)
Definition close_last (zw : Writer) : list Chunk :=
  match zw_last zw with
  | Some _ => [DataDescriptor (zw_count zw)]
  | None => []
  end.

(** [zip.Writer.CreateHeader(fh)] succeeding: the entry before it is
    closed, the local header goes out with the method [fh] holds at this
    moment, the compressor for that method is installed for the data to
    come, and the pointer [fh] joins the directory. *)
Definition CreateHeader (p : nat) (zw : Writer) (w : World) : World * Writer :=
  let method := fh_Method (header_at w p) in
  (write_chunks (zw_handle zw)
     (close_last zw ++ [LocalHeader (fh_Name (header_at w p)) method])%list w,
   {| zw_handle := zw_handle zw; zw_dir := (zw_dir zw ++ [p])%list;
      zw_last := Some method; zw_count := 0 |}).

(** [fh.Method = m] through the pointer. *)
Definition set_Method (p : nat) (m : Method) (w : World) : World :=
  {| files := files w; opened := opened w;
     heap := alter (fun fh =>
                      {| fh_Name := fh_Name fh; fh_Method := m;
                         fh_Modified := fh_Modified fh;
                         fh_UncompressedSize64 := fh_UncompressedSize64 fh;
                         fh_CRC32 := fh_CRC32 fh |}) p (heap w);
     atexit := atexit w |}.

(** Writing [data] to the [io.Writer] that [CreateHeader] returned. *)
Definition write_data (data : list byte) (zw : Writer) (w : World) : World * Writer :=
  match zw_last zw with
  | Some method =>
      (write_chunks (zw_handle zw) [FileData method data] w,
       {| zw_handle := zw_handle zw; zw_dir := zw_dir zw;
          zw_last := zw_last zw;
          zw_count := zw_count zw + Z.of_nat (length data) |})
  | None => (w, zw)
  end.

(** [zip.Writer.Close], the first half of the exit hook: the open entry
    is closed and the central directory goes out, each record with the
    method its header holds by then. *)
Definition Close (zw : Writer) (w : World) : World :=
  write_chunks (zw_handle zw)
    (close_last zw ++
     map (fun p => CentralHeader (fh_Name (header_at w p)) (fh_Method (header_at w p)))
         (zw_dir zw))%list w.

(** [Fs.Put]. The mutex makes calls sequential, as they are here. *)
Definition Put (env : PutEnv) (w : World) (f : Fs) (in_ : Reader) (src : ObjectInfo)
  : World * Fs * res Object :=
  let size := src_Size src in
  if (size <? 0)%Z then (w, f, Err (ErrMsg "can't zip unknown sized objects"))
  else
    let opening :=
      match f_zw f with
      | Some zw => (w, f, Ok zw)
      | None =>
          match env_OpenFile env with
          | Some e =>
              (OpenFile_failed (f_remote f) w, f,
               Err (Wrap "zip put: failed to open output file" e))
          | None =>
              let zw := NewWriter (f_remote f) in
              (register_atexit (OpenFile_trunc (f_remote f) w),
               set_writer f (Some (f_remote f)) (Some zw), Ok zw)
          end
      end in
    match opening with
    | (w1, f1, Err e) => (w1, f1, Err e)
    | (w1, f1, Panic) => (w1, f1, Panic)
    | (w1, f1, Ok zw) =>
        let (w2, fh) := FileInfoHeader (src : ObjectInfo) w1 in
        match env_CreateHeader env with
        | Some e => (w2, f1, Err (Wrap "zip put: failed to open file" e))
        | None =>
            let (w3, zw3) := CreateHeader fh zw w2 in
            let w4 := set_Method fh (if (size <? 10)%Z then Store else Deflate) w3 in
            let copied := GoIO.CopyN in_ size in
            let (w5, zw5) := write_data copied.1 zw3 w4 in
            let f5 := set_writer f1 (f_wh f1) (Some zw5) in
            match copied.2 with
            | Some e => (w5, f5, Err (Wrap "zip put: failed to copy file" e))
            | None =>
                (w5, f5,
                 Ok {| o_remote := src_Remote src; o_fh := header_at w5 fh;
                       o_file := None |})
            end
        end
    end.

(** *** The remaining methods *)

(** [Fs.strip] *)
Definition strip (f : Fs) (remote : string) : res string :=
  stripPrefix (f_prefix f) (f_prefixSlash f) remote.

(** [Object.path]: a path of the archive as a path of the parent [Fs]. *)
Definition path (f : Fs) (remote : string) : string :=
  Join [f_prefix f; remote].

(** [Fs.Mkdir], [Fs.Rmdir]: the error returned, if any. *)
Definition Mkdir (f : Fs) (dir : string) : option error := None.

Definition Rmdir (f : Fs) (dir : string) : option error :=
  Some (ErrMsg "can't remove directories from zip file").

(** [Object.ModTime], [Object.SetModTime], [Object.Storable] *)
Definition ModTime (o : Object) : Z := fh_Modified (o_fh o).

Definition SetModTime (o : Object) (modTime : Z) : option error := None.

Definition Storable (o : Object) : bool := true.

(** [Object.Update], [Object.Remove] *)
Definition Update (o : Object) (in_ : Reader) (src : ObjectInfo) : option error :=
  Some (ErrMsg "can't Update zip files").

Definition Remove (o : Object) : option error :=
  Some (ErrMsg "can't Remove zip file objects").

(** [Fs.Hashes] *)
Definition Hashes : list HashType := [CRC32].

End zip.

(** ** [backend/archive/squashfs] *)

Module squashfs.
Import GoStrings GoPath dirtree fs vfs archive.

(** One call of the [stdfs.WalkDir] callback: the path, and what
    [d.IsDir()] and [d.Info()] answer. The list handed to the loop holds
    the calls made until the walk ended: [readSquashfs] throws away the
    error of [WalkDir], so a failing directory read or [d.Info()] only
    ends the list early. *)
Record WalkEntry : Type :=
  { we_filePath : string;
    we_IsDir : bool;
    we_Size : Z;
    we_ModTime : Z }.

(** [Object]; the back pointer [fs] is left out. *)
Record Object : Type :=
  { o_remote : string;
    o_filePath : string;
    o_size : Z;
    o_modTime : Z }.

#[global] Instance Object_Remoter : Remoter Object := o_remote.

(** [squashfs.Reader]: what [rd.FS.Open(filePath)] answers. *)
Definition SquashReader : Type := string -> res Reader.

(** [Fs], the fields the modelled methods use. *)
Record Fs : Type :=
  { f_node : option (Node WalkEntry);
    f_rd : SquashReader;
    f_remote : string;
    f_prefix : string;
    f_prefixSlash : string;
    f_root : string;
    f_dt : option (DirTree Object) }.

Definition set_dt (f : Fs) (dt : DirTree Object) : Fs :=
  {| f_node := f_node f; f_rd := f_rd f; f_remote := f_remote f;
     f_prefix := f_prefix f; f_prefixSlash := f_prefixSlash f;
     f_root := f_root f; f_dt := Some dt |}.

(** The path of a walked entry before [root] is applied (lines 154-158). *)
Definition entryPath (prefix : string) (e : WalkEntry) : string :=
  prefixed prefix (Trim (we_filePath e)).

Definition mkObject (remote : string) (e : WalkEntry) : Object :=
  {| o_remote := remote; o_filePath := we_filePath e;
     o_size := we_Size e; o_modTime := we_ModTime e |}.

(** The callback of [readSquashfs] over the walked entries; the flag is
    [singleObject], and [stdfs.SkipAll] ends the walk. *)
Fixpoint readSquashfs_loop (prefix root : string) (walk : list WalkEntry)
  (dt : DirTree Object) : DirTree Object * bool :=
  match walk with
  | [] => (dt, false)
  | d :: rest =>
      match trimRoot root (entryPath prefix d) with
      | None => readSquashfs_loop prefix root rest dt
      | Some remote =>
          if we_IsDir d then
            readSquashfs_loop prefix root rest
              (AddDir (EDir (NewDir remote (we_ModTime d))) dt)
          else if String.eqb remote "" then
            (Add (EObj (mkObject (Base root) d)) New, true)
          else
            readSquashfs_loop prefix root rest (Add (EObj (mkObject remote d)) dt)
      end
  end.

Definition buildSquashfs (now : Z) (prefix root : string) (walk : list WalkEntry)
  : DirTree Object * bool :=
  let r := readSquashfs_loop prefix root walk New in
  (Sort (CheckParents now "" r.1), r.2).

(** [Fs.readSquashfs], with the walk of [f.rd.FS]. *)
Definition readSquashfs (now : Z) (walk : list WalkEntry) (f : Fs) : res (Fs * bool) :=
  match f_node f with
  | None => Err ErrorDirNotFound
  | Some node =>
      if (node_Size node <? 0)%Z then
        Err (ErrMsg "can't read from squashfs file with unknown size")
      else
        let r := buildSquashfs now (f_prefix f) (f_root f) walk in
        Ok (set_dt f r.1, r.2)
  end.

(** [New]. [rd] is the reader [squashfs.NewReader] makes of the opened
    node. A method called on the nil node panics. *)
Definition New (now : Z) (stat : StatResult WalkEntry) (rd : SquashReader)
  (remote prefix root : string) : res (Fs * option error) :=
  match stat with
  | StatFailed e => Err (Wrap "failed to find object" e)
  | _ =>
      let node := match stat with StatFound n => Some n | _ => None end in
      if match node with Some n => node_IsDir n | None => false end then
        Err (ErrMsg "can't unsquashfs a directory")
      else
        match node with
        | None => Panic
        | Some n =>
            match node_Open n with
            | Some e => Err (Wrap "failed to open squashfs archive" e)
            | None =>
                match node_entries n with
                | Err e => Err (Wrap "squashfs reader creation failed" e)
                | Panic => Panic
                | Ok walk =>
                    let f := {| f_node := node; f_rd := rd; f_remote := remote;
                                f_prefix := prefix; f_prefixSlash := prefix ++ "/";
                                f_root := root; f_dt := None |} in
                    match readSquashfs now walk f with
                    | Err e => Err (Wrap "failed to list squashfs file" e)
                    | Panic => Panic
                    | Ok (f', singleObject) =>
                        Ok (f', if singleObject then Some ErrorIsFile else None)
                    end
                end
            end
        end
  end.

(** [Fs.List] *)
Definition List (f : Fs) (dir : string) : res (list (DirEntry Object)) :=
  match f_dt f with
  | None => Err ErrorDirNotFound
  | Some dt =>
      match dt !! dir with
      | Some entries => Ok entries
      | None => Err ErrorDirNotFound
      end
  end.

(** [Fs.NewObject] *)
Definition NewObject (f : Fs) (remote : string) : res Object :=
  match f_dt f with
  | None => Err ErrorObjectNotFound
  | Some dt =>
      match (Find dt remote).2 with
      | None => Err ErrorObjectNotFound
      | Some (EObj o) => Ok o
      | Some (EDir _) => Err ErrorNotAFile
      end
  end.

(** [Object.Size] *)
Definition Size (o : Object) : Z := o_size o.

(** [Object.Open] from [o.fs.rd.FS.Open(o.filePath)] on. *)
Definition openAt (f : Fs) (o : Object) (offset limit : Z) : res Reader :=
  match f_rd f (o_filePath o) with
  | Err e => Err e
  | Panic => Panic
  | Ok rc =>
      match (if (0 <? offset)%Z then GoIO.CopyN_Discard rc offset else Ok rc) with
      | Err e => Err e
      | Panic => Panic
      | Ok rc' =>
          if (0 <=? limit)%Z then
            Ok (readers.NewLimitedReadCloser rc' (limit - offset))
          else Ok rc'
      end
  end.

(** [Object.Open] *)
Definition Open (f : Fs) (o : Object) (options : list OpenOption) : res Reader :=
  let ol := decodeOptions (Size o) options in
  openAt f o ol.1 ol.2.

(** [Fs.Put] *)
Definition Put (f : Fs) (in_ : Reader) (src : ObjectInfo) : res Object :=
  Err ErrorNotImplemented.

(** *** The remaining methods *)

(** [Fs.strip] *)
Definition strip (f : Fs) (remote : string) : res string :=
  stripPrefix (f_prefix f) (f_prefixSlash f) remote.

(** [Object.path] *)
Definition path (f : Fs) (remote : string) : string :=
  Join [f_prefix f; remote].

(** [Fs.Mkdir], [Fs.Rmdir] *)
Definition Mkdir (f : Fs) (dir : string) : option error := None.

Definition Rmdir (f : Fs) (dir : string) : option error :=
  Some (ErrMsg "can't remove directories from squashfs file").

(** [Object.ModTime], [Object.SetModTime], [Object.Storable] *)
Definition ModTime (o : Object) : Z := o_modTime o.

Definition SetModTime (o : Object) (modTime : Z) : option error := None.

Definition Storable (o : Object) : bool := true.

(** [Object.Hash] *)
Definition Hash (o : Object) (ht : HashType) : res string := Err ErrUnsupported.

(** [Object.Update], [Object.Remove] *)
Definition Update (o : Object) (in_ : Reader) (src : ObjectInfo) : option error :=
  Some (ErrMsg "can't Update squashfs files").

Definition Remove (o : Object) : option error :=
  Some (ErrMsg "can't Remove squashfs file objects").

(** [Fs.Hashes] *)
Definition Hashes : list HashType := [HashNone].

End squashfs.

(** ** Sample archives *)

Import GoStrings GoPath dirtree fs vfs archive.

Definition sample_header (name : string) (size : Z) : zip.FileHeader :=
  {| zip.fh_Name := name; zip.fh_Method := zip.Deflate; zip.fh_Modified := 1700000000;
     zip.fh_UncompressedSize64 := size; zip.fh_CRC32 := 3735928559 |}.

Definition sample_file (name : string) (content : list byte) : zip.File :=
  {| zip.file_FileHeader := sample_header name (Z.of_nat (length content));
     zip.file_Open := Ok content |}.

Definition sample_walk (filePath : string) (isDir : bool) (size : Z) : squashfs.WalkEntry :=
  {| squashfs.we_filePath := filePath; squashfs.we_IsDir := isDir;
     squashfs.we_Size := size; squashfs.we_ModTime := 1700000000 |}.

Definition bytes20 : list byte :=
  [x00; x01; x02; x03; x04; x05; x06; x07; x08; x09;
   x0a; x0b; x0c; x0d; x0e; x0f; x10; x11; x12; x13].

Definition sample_node {E} (entries : list E) : Node E :=
  {| node_IsDir := false; node_Size := 4096; node_Open := None;
     node_entries := Ok entries |}.

Definition listing {T} `{Remoter T} (dt : DirTree T) : list (string * list (string * bool)) :=
  map (fun kv => (kv.1, map (fun e => (entry_Remote e, is_dir_entry e)) kv.2))
      (map_to_list dt).

Definition sample_object (name : string) (content : list byte) : zip.Object :=
  zip.mkObject name (sample_file name content).

Definition sample_sq_object (filePath : string) (size : Z) : squashfs.Object :=
  squashfs.mkObject filePath (sample_walk filePath false size).

(** A squashfs adapter whose reader holds one 20-byte file. *)
Definition sample_sq_fs : squashfs.Fs :=
  {| squashfs.f_node := Some (sample_node [sample_walk "data.bin" false 20]);
     squashfs.f_rd := fun filePath =>
       if String.eqb filePath "data.bin" then Ok bytes20 else Err ErrNotExist;
     squashfs.f_remote := "test.sqfs"; squashfs.f_prefix := "";
     squashfs.f_prefixSlash := "/"; squashfs.f_root := "";
     squashfs.f_dt := None |}.

(** The zip adapter on a remote that does not exist yet. *)
Definition fresh_zip_fs (remote : string) : zip.Fs :=
  {| zip.f_node := None; zip.f_remote := remote; zip.f_prefix := "";
     zip.f_prefixSlash := "/"; zip.f_root := ""; zip.f_dt := None;
     zip.f_wh := None; zip.f_zw := None |}.

Definition empty_world : zip.World :=
  {| zip.files := ∅; zip.opened := []; zip.heap := []; zip.atexit := 0 |}.

(** A wrapped filesystem that already holds two bytes at [test.zip]. *)
Definition stale_world : zip.World :=
  {| zip.files := {[ "test.zip" := [zip.Stale x50; zip.Stale x4b] ]};
     zip.opened := []; zip.heap := []; zip.atexit := 0 |}.

Definition calm : zip.PutEnv :=
  {| zip.env_OpenFile := None; zip.env_CreateHeader := None |}.

Definition source (name : string) (size : Z) : ObjectInfo :=
  {| src_Remote := name; src_Size := size; src_ModTime := 1700000000 |}.

(** ** Notions the properties are stated with *)

(** Nothing stored in [w] is lost in [w']: every file keeps its content
    as a prefix. *)
Definition extends (w w' : zip.World) : Prop :=
  forall path old, zip.files w !! path = Some old ->
    exists cs, zip.files w' !! path = Some (old ++ cs)%list.

(** The records one accepted [Put] sends to the encoder's handle, after
    whatever closes the entry before it. *)
Definition entry_chunks (src : ObjectInfo) (in_ : Reader) : list zip.Chunk :=
  [zip.LocalHeader (src_Remote src) zip.Store;
   zip.FileData zip.Store (take (Z.to_nat (src_Size src)) in_)].

(** The method [Put] assigns to the header. *)
Definition chosen_method (size : Z) : zip.Method :=
  if (size <? 10)%Z then zip.Store else zip.Deflate.

(** [e] is a child of some directory of the tree. *)
Definition in_tree {T} (dt : DirTree T) (e : DirEntry T) : Prop :=
  exists dirPath es, dt !! dirPath = Some es /\ e ∈ es.

(** Every entry sits in the list of its parent directory. *)
Definition well_placed {T} `{Remoter T} (dt : DirTree T) : Prop :=
  forall dirPath es e, dt !! dirPath = Some es -> e ∈ es ->
    dirPath = parentDir (entry_Remote e).

(** The length of a path written from its elements, counting one
    separator after each, and the number of empty elements. *)
Fixpoint cost (l : list string) : nat :=
  match l with
  | [] => 0
  | x :: r => S (String.length x) + cost r
  end.

Fixpoint count_empty (l : list string) : nat :=
  match l with
  | [] => 0
  | x :: r => (if String.eqb x "" then 1 else 0) + count_empty r
  end.

(** [dirPath] is a directory of the tree. *)
Definition is_key {T} (dt : DirTree T) (dirPath : string) : Prop :=
  is_Some (dt !! dirPath).

(** The state of the walk of [CheckParents] is sound when entries sit
    under their parents and every recorded directory has its parent
    among the keys. *)
Definition walk_inv {T} `{Remoter T} (st : DirTree T * gset string) : Prop :=
  well_placed st.1 /\ forall d, d ∈ st.2 -> is_key st.1 (parentDir d).

(** From [st] to [st'] the walk only adds: recorded directories, keys
    and entries stay, and a new entry is a directory. *)
Definition walk_grows {T} (st st' : DirTree T * gset string) : Prop :=
  st.2 ⊆ st'.2
  /\ (forall k, is_key st.1 k -> is_key st'.1 k)
  /\ (forall e, in_tree st.1 e -> in_tree st'.1 e)
  /\ (forall e, in_tree st'.1 e -> in_tree st.1 e \/ is_dir_entry e = true).

(** The loop the two backends share, over what they do differently: the
    path of an entry under [prefix], the directory test, the time and the
    object made. [zip_loop_shared] and [squashfs_loop_shared] show that
    [readZip_loop] and [readSquashfs_loop] are instances. *)
Section shared_loop.
Context {E T : Type} `{Remoter T}.
Variables (path : E -> string) (isDir : E -> bool) (modTime : E -> Z)
  (mk : string -> E -> T).

Fixpoint build_loop (root : string) (entries : list E) (dt : DirTree T)
  : DirTree T * bool :=
  match entries with
  | [] => (dt, false)
  | entry :: rest =>
      match trimRoot root (path entry) with
      | None => build_loop root rest dt
      | Some remote =>
          if isDir entry then
            build_loop root rest (AddDir (EDir (NewDir remote (modTime entry))) dt)
          else if String.eqb remote "" then
            (Add (EObj (mk (Base root) entry)) New, true)
          else build_loop root rest (Add (EObj (mk remote entry)) dt)
      end
  end.

(** The entry is a file whose path, after [prefix] and [root], is empty. *)
Definition is_root_file (root : string) (entry : E) : bool :=
  negb (isDir entry) && bool_decide (trimRoot root (path entry) = Some "").

(** The entry the loop makes of an accepted record at [remote]. *)
Definition entry_of (remote : string) (entry : E) : DirEntry T :=
  if isDir entry then EDir (NewDir remote (modTime entry))
  else EObj (mk remote entry).

End shared_loop.

Definition zip_isDir (file : zip.File) : bool :=
  HasSuffix (zip.fh_Name (zip.file_FileHeader file)) "/".

Definition zip_modTime (file : zip.File) : Z :=
  zip.fh_Modified (zip.file_FileHeader file).

(** A plain element is a name: not empty, not [.], not [..]. A plain
    path is made of plain elements, such as [a/b/c]. *)
Definition plain (x : string) : bool :=
  negb (String.eqb x "") && negb (String.eqb x ".") && negb (String.eqb x "..").

Definition plain_path (p : string) : bool := forallb plain (split p).

(** [d] names a directory above [p]: the root, or what stands before one
    of the slashes of [p]. *)
Definition path_prefix (d p : string) : Prop :=
  d = "" \/ exists rest, p = d ++ String "/" rest.

(** ** Notions for the further properties *)

(** The value of a lower-case hexadecimal numeral: its place among the
    sixteen numerals. *)
Fixpoint place_of (c : ascii) (numerals : string) (place : Z) : option Z :=
  match numerals with
  | EmptyString => None
  | String d rest => if Ascii.eqb c d then Some place else place_of c rest (place + 1)
  end.

Definition hex_value (c : ascii) : option Z := place_of c "0123456789abcdef" 0.

Fixpoint parse_hex_from (acc : Z) (s : string) : option Z :=
  match s with
  | EmptyString => Some acc
  | String c r =>
      match hex_value c with
      | Some d => parse_hex_from (16 * acc + d) r
      | None => None
      end
  end.

Definition parse_hex (s : string) : option Z := parse_hex_from 0 s.

(** One request to the writer: what the collaborators answer, the
    stream and the source description. *)
Record PutRequest : Type :=
  { req_env : zip.PutEnv; req_in : Reader; req_src : ObjectInfo }.

(** A series of [Put] calls on one adapter, with the results in order. *)
Fixpoint put_all (reqs : list PutRequest) (w : zip.World) (f : zip.Fs)
  : zip.World * zip.Fs * list (res zip.Object) :=
  match reqs with
  | [] => (w, f, [])
  | req :: rest =>
      let r := zip.Put (req_env req) w f (req_in req) (req_src req) in
      let rs := put_all rest r.1.1 r.1.2 in
      (rs.1.1, rs.1.2, r.2 :: rs.2)
  end.

(** A request that is accepted when the collaborators do not fail. *)
Definition complete (req : PutRequest) : Prop :=
  req_env req = calm
  /\ (0 <= src_Size (req_src req) <= Z.of_nat (length (req_in req)))%Z.

(** A zip adapter as [New] makes it, for a given prefix and root. *)
Definition zip_fs (prefix root : string) (dt : option (DirTree zip.Object)) : zip.Fs :=
  {| zip.f_node := None; zip.f_remote := "test.zip"; zip.f_prefix := prefix;
     zip.f_prefixSlash := prefix ++ "/"; zip.f_root := root; zip.f_dt := dt;
     zip.f_wh := None; zip.f_zw := None |}.

(** [rc] is a run of consecutive bytes of [content]. *)
Definition segment_of (rc content : list byte) : Prop :=
  exists before after, content = (before ++ rc ++ after)%list.

(** The options [Open] acts on. *)
Definition known_option (option : OpenOption) : bool :=
  match option with
  | OtherOption _ => false
  | _ => true
  end.

(** The test that lets an entry path into the loop. *)
Definition kept (root remote : string) : bool :=
  String.eqb root "" || HasPrefix remote root.

(** The encoder of an adapter writes to the adapter's own remote. *)
Definition session_ok (f : zip.Fs) : Prop :=
  forall zw, zip.f_zw f = Some zw -> zip.zw_handle zw = zip.f_remote f.

(** The header [Put] hands out with an accepted entry. *)
Definition put_header (src : ObjectInfo) : zip.FileHeader :=
  {| zip.fh_Name := src_Remote src;
     zip.fh_Method := chosen_method (src_Size src);
     zip.fh_Modified := src_ModTime src;
     zip.fh_UncompressedSize64 := src_Size src;
     zip.fh_CRC32 := 0 |}.

(** What identifies a header in the directory: the fields that closing
    an entry does not rewrite. *)
Definition header_id (h : zip.FileHeader) : string * zip.Method * Z :=
  (zip.fh_Name h, zip.fh_Method h, zip.fh_Modified h).

Definition source_id (req : PutRequest) : string * zip.Method * Z :=
  (src_Remote (req_src req), chosen_method (src_Size (req_src req)),
   src_ModTime (req_src req)).

(** The remote of the object a call returned, if it returned one. *)
Definition returned_remote (r : res zip.Object) : option string :=
  match r with
  | Ok o => Some (zip.o_remote o)
  | _ => None
  end.

(** * Properties *)

(** ** The path functions on sample inputs *)

Example Clean_samples :
  map Clean ["a/b/../c"; "/../a//b/."; "../../x"; ""; "a/.."; "/"; "abc//def//ghi"; "a/b/c/"]
  = ["a/c"; "/a/b"; "../../x"; "."; "."; "/"; "abc/def/ghi"; "a/b/c"].
Proof. reflexivity. Qed.

Example Join_samples :
  map Join [["a"; "b"]; [""; "b"]; ["a"; ""]; [""; ""]; ["a/b"; "../c"]]
  = ["a/b"; "b"; "a"; ""; "a/c"].
Proof. reflexivity. Qed.

Example Dir_Base_samples :
  map Dir ["a/b/c"; "a"; "/a"; ""; "/"] = ["a/b"; "."; "/"; "."; "/"]
  /\ map Base ["a/b/c"; "a/"; ""; "/"; "a"] = ["c"; "a"; "."; "/"; "a"].
Proof. split; reflexivity. Qed.

Example Trim_samples :
  map Trim ["/a/b/"; "//"; "a"; ""; "."] = ["a/b"; ""; "a"; ""; "."].
Proof. reflexivity. Qed.

(** The scenario of the design document: two files, no directory
    record, and the same archive seen from the root [a/c]. *)
Example scenario_no_root :
  let r := zip.buildZip 0 "" "" [sample_file "a/b.txt" [x00]; sample_file "a/c/d.txt" [x01]] in
  listing r.1
  = [("a/c", [("a/c/d.txt", false)]);
     ("a", [("a/b.txt", false); ("a/c", true)]);
     ("", [("a", true)])]
  /\ r.2 = false.
Proof. vm_compute. split; reflexivity. Qed.

Example scenario_root_a_c :
  let r := zip.buildZip 0 "" "a/c" [sample_file "a/b.txt" [x00]; sample_file "a/c/d.txt" [x01]] in
  listing r.1 = [("", [("d.txt", false)])] /\ r.2 = false.
Proof. vm_compute. split; reflexivity. Qed.

(** ** [New] on a remote that does not exist *)

Lemma zip_New_missing now remote prefix root :
  exists f, zip.New now StatNotExist remote prefix root = Ok (f, None)
            /\ zip.f_dt f = None /\ zip.f_zw f = None.
Proof. eexists. split; [reflexivity | split; reflexivity]. Qed.

(** C8. On a remote that does not exist, the zip [New] returns an adapter
    without a directory tree and no error; the squashfs [New] does not:
    it calls [Open] on the nil node before its [node != nil] test and
    panics. *)
Theorem New_missing_remote now rd remote prefix root :
  (exists f, zip.New now StatNotExist remote prefix root = Ok (f, None)
             /\ zip.f_dt f = None)
  /\ squashfs.New now StatNotExist rd remote prefix root = Panic.
Proof.
  split; [| reflexivity].
  destruct (zip_New_missing now remote prefix root) as (f & Hf & Hdt & _).
  exists f. by split.
Qed.

(** ** [Hash] *)

(** C10. On a zip adapter without a directory tree, [Hash] with the CRC32
    type answers the empty string and no error, for every object. *)
Theorem Hash_CRC32_without_tree (f : zip.Fs) (o : zip.Object) :
  zip.f_dt f = None -> zip.Hash f o CRC32 = Ok "".
Proof. intros Hdt. unfold zip.Hash. by rewrite Hdt. Qed.

Lemma Hash_CRC32_without_tree_witness :
  zip.f_dt (fresh_zip_fs "test.zip") = None
  /\ zip.Hash (fresh_zip_fs "test.zip") (sample_object "a.txt" bytes20) CRC32 = Ok "".
Proof.
  split; [reflexivity |].
  apply (Hash_CRC32_without_tree (fresh_zip_fs "test.zip")). reflexivity.
Defined.

Example Hash_CRC32_with_tree :
  zip.Hash (zip.set_dt (fresh_zip_fs "test.zip") New) (sample_object "a.txt" bytes20) CRC32
  = Ok "deadbeef".
Proof. reflexivity. Qed.

Lemma Hash_other_types f o ht : ht <> CRC32 -> zip.Hash f o ht = Err ErrUnsupported.
Proof. by destruct ht. Qed.

(** ** [Open] *)

(** What the code does with a window: the first [offset] bytes are
    dropped, and [limit] is taken as the position where reading ends. *)
Lemma zip_openAt_window (o : zip.Object) (file : zip.File) (content : list byte)
  (offset limit : Z) :
  zip.o_file o = Some file -> zip.file_Open file = Ok content ->
  (0 <= offset <= Z.of_nat (length content))%Z ->
  zip.openAt o offset limit =
    Ok (if (limit <? 0)%Z then drop (Z.to_nat offset) content
        else if (limit <? offset)%Z then drop (Z.to_nat offset) content
        else take (Z.to_nat (limit - offset)) (drop (Z.to_nat offset) content)).
Proof.
  intros Hf Hc Hoff. unfold zip.openAt. rewrite Hf, Hc.
  unfold GoIO.CopyN_Discard, readers.NewLimitedReadCloser.
  destruct (Z.ltb_spec 0 offset) as [Hpos | Hzero].
  - destruct (Z.ltb_spec (Z.of_nat (length content)) offset); [lia |].
    destruct (Z.leb_spec 0 limit), (Z.ltb_spec limit 0); try lia; [| done].
    destruct (Z.ltb_spec (limit - offset) 0), (Z.ltb_spec limit offset); try lia; done.
  - assert (offset = 0%Z) as -> by lia. simpl drop.
    destruct (Z.leb_spec 0 limit), (Z.ltb_spec limit 0); try lia; [| done].
    destruct (Z.ltb_spec (limit - 0) 0), (Z.ltb_spec limit 0); try lia; done.
Qed.

(** C2. The window is not [offset, offset+limit): [Open] hands
    [limit - offset] to the limiting reader. A 20-byte entry read with
    the range 5-12 (offset 5, limit 8) yields the 3 bytes 5..7 instead of
    the 8 bytes 5..12; read with offset 5 and limit 3 it yields all the
    bytes from 5 on, in both backends. *)
Theorem Open_limit_minus_offset :
  let o := sample_object "data.bin" bytes20 in
  let so := sample_sq_object "data.bin" 20 in
  decodeOptions (zip.Size o) [RangeOption 5 12] = (5, 8)%Z
  /\ zip.Open o [RangeOption 5 12] = Ok [x05; x06; x07]
  /\ zip.openAt o 5 3 = Ok (drop 5 bytes20)
  /\ squashfs.Open sample_sq_fs so [RangeOption 5 12] = Ok [x05; x06; x07]
  /\ squashfs.openAt sample_sq_fs so 5 3 = Ok (drop 5 bytes20).
Proof. repeat split; reflexivity. Qed.

Example Open_seek_only :
  zip.Open (sample_object "data.bin" bytes20) [SeekOption 20] = Ok []
  /\ zip.Open (sample_object "data.bin" bytes20) [SeekOption 21] = Err EOF.
Proof. split; reflexivity. Qed.

(** ** Facts about strings *)

Lemma app_cons (c : ascii) (s t : string) : String c s ++ t = String c (s ++ t).
Proof. reflexivity. Qed.

Lemma app_empty_l (t : string) : "" ++ t = t.
Proof. reflexivity. Qed.

Lemma app_empty_r (s : string) : s ++ "" = s.
Proof. induction s as [| c s IH]; [done |]. by rewrite app_cons, IH. Qed.

Lemma app_assoc_s (s t u : string) : (s ++ t) ++ u = s ++ (t ++ u).
Proof. induction s as [| c s IH]; [done |]. by rewrite !app_cons, IH. Qed.

Lemma length_app_s (s t : string) :
  String.length (s ++ t) = String.length s + String.length t.
Proof. induction s as [| c s IH]; [done |]. rewrite app_cons. simpl. by rewrite IH. Qed.

Lemma drop_chars_app (s t : string) : drop_chars (String.length s) (s ++ t) = t.
Proof. induction s as [| c s IH]; [by destruct t |]. by rewrite app_cons. Qed.

(** ** The root filter *)

Lemma HasPrefix_app (s t : string) : HasPrefix (s ++ t) s = true.
Proof.
  induction s as [| c s IH]; [by destruct t |].
  rewrite app_cons. simpl. by rewrite Ascii.eqb_refl.
Qed.

Lemma HasPrefix_refl (s : string) : HasPrefix s s = true.
Proof. rewrite <- (app_empty_r s) at 1. apply HasPrefix_app. Qed.

Lemma HasPrefix_inv (s p : string) :
  HasPrefix s p = true -> s = p ++ drop_chars (String.length p) s.
Proof.
  revert s. induction p as [| c p IH]; intros s Hp; [done |].
  destruct s as [| d s]; [done |]. simpl in Hp.
  destruct (Ascii.eqb_spec d c) as [-> |]; [| done].
  rewrite app_cons. simpl. f_equal. by apply IH.
Qed.

Lemma HasPrefix_app_l (s p q : string) :
  HasPrefix s (p ++ q) = true -> HasPrefix s p = true.
Proof.
  revert s. induction p as [| c p IH]; intros s Hp; [by destruct s |].
  destruct s as [| d s]; [done |]. rewrite app_cons in Hp. simpl in *.
  destruct (Ascii.eqb d c); [by apply IH | done].
Qed.

Lemma app_slash_neq (root rest : string) : root ++ String "/" rest <> root.
Proof.
  induction root as [| c root IH]; [done |].
  rewrite app_cons. intros Heq. injection Heq as Heq. by apply IH.
Qed.

(** An entry is skipped exactly when [root] is set and is not a string
    prefix of its path. *)
Lemma trimRoot_None (root remote : string) :
  trimRoot root remote = None <-> root <> "" /\ HasPrefix remote root = false.
Proof.
  unfold trimRoot. destruct (String.eqb_spec root "") as [-> | Hne]; simpl.
  - split; [done | by intros [? _]].
  - destruct (HasPrefix remote root); simpl.
    + split; [by destruct (String.eqb remote root) | by intros [_ ?]].
    + done.
Qed.

(** On the paths under [root], the filter does what the design says. *)
Lemma trimRoot_inside (root rest : string) :
  root <> "" ->
  trimRoot root root = Some ""
  /\ trimRoot root (root ++ String "/" rest) = Some rest.
Proof.
  intros Hne. unfold trimRoot.
  destruct (String.eqb_spec root "") as [| _]; [done |]. simpl.
  split.
  - by rewrite HasPrefix_refl, String.eqb_refl.
  - rewrite HasPrefix_app. simpl.
    destruct (String.eqb_spec (root ++ String "/" rest) root) as [Heq | _].
    { by apply app_slash_neq in Heq. }
    unfold TrimPrefix.
    replace (root ++ String "/" rest) with ((root ++ "/") ++ rest)
      by (by rewrite app_assoc_s).
    by rewrite HasPrefix_app, drop_chars_app.
Qed.

(** C1. The filter tests [root] as a string prefix, not as a path
    prefix: under the root [a], the entry [ab/c] is neither equal to
    [a] nor under [a/], and both backends keep it, at its full path. *)
Theorem root_prefix_without_separator :
  zip.entryPath "" (sample_file "ab/c" [x00]) = "ab/c"
  /\ String.eqb "ab/c" "a" = false
  /\ HasPrefix "ab/c" ("a" ++ "/") = false
  /\ trimRoot "a" "ab/c" = Some "ab/c"
  /\ listing (zip.buildZip 0 "" "a"
                [sample_file "ab/c" [x00]; sample_file "a/b.txt" [x01]]).1
     = [("ab", [("ab/c", false)]); ("", [("ab", true); ("b.txt", false)])]
  /\ listing (squashfs.buildSquashfs 0 "" "a"
                [sample_walk "ab/c" false 1; sample_walk "a/b.txt" false 1]).1
     = [("ab", [("ab/c", false)]); ("", [("ab", true); ("b.txt", false)])].
Proof. vm_compute. repeat split; reflexivity. Qed.

(** ** [Put] *)

Lemma Put_unknown_size env w f in_ src :
  (src_Size src < 0)%Z ->
  zip.Put env w f in_ src = (w, f, Err (ErrMsg "can't zip unknown sized objects")).
Proof.
  intros Hneg. unfold zip.Put.
  by destruct (Z.ltb_spec (src_Size src) 0); [| lia].
Qed.

Lemma Put_short_read env w f (in_ : Reader) src :
  (0 <= src_Size src)%Z -> (Z.of_nat (length in_) < src_Size src)%Z ->
  exists e, (zip.Put env w f in_ src).2 = Err e.
Proof.
  intros Hsize Hshort. unfold zip.Put, GoIO.CopyN.
  destruct (Z.ltb_spec (src_Size src) 0); [lia |].
  destruct (Z.ltb_spec (Z.of_nat (length in_)) (src_Size src)); [| lia].
  destruct (zip.f_zw f), (zip.env_OpenFile env), (zip.env_CreateHeader env);
    simpl; eauto.
Qed.

(** A short read leaves the session as any other entry does: the handle
    and the encoder stay in place. *)
Lemma Put_keeps_session env w f (in_ : Reader) src :
  (0 <= src_Size src)%Z ->
  zip.env_OpenFile env = None ->
  exists zw, zip.f_zw (zip.Put env w f in_ src).1.2 = Some zw.
Proof.
  intros Hsize Hopen. unfold zip.Put.
  destruct (Z.ltb_spec (src_Size src) 0); [lia |].
  rewrite Hopen.
  destruct (zip.f_zw f) as [zw |] eqn:Hzw, (zip.env_CreateHeader env); simpl;
    try rewrite Hzw; eauto;
    destruct (Z.of_nat (length in_) <? src_Size src)%Z; simpl; eauto.
Qed.

(** On an open session, an entry whose stream is long enough is
    accepted, whatever happened to the entries before it. *)
Lemma Put_accepts w f zw (in_ : Reader) src :
  zip.f_zw f = Some zw ->
  (0 <= src_Size src <= Z.of_nat (length in_))%Z ->
  exists o, (zip.Put calm w f in_ src).2 = Ok o /\ zip.o_remote o = src_Remote src.
Proof.
  intros Hzw Hsize. unfold zip.Put, GoIO.CopyN. rewrite Hzw.
  destruct (Z.ltb_spec (src_Size src) 0); [lia |].
  destruct (Z.ltb_spec (Z.of_nat (length in_)) (src_Size src)); [lia |].
  simpl. eauto.
Qed.

(** C5, as stated, fails: after a put declared as 100 bytes whose stream
    ends after 50, the same session takes the next entry. *)
Lemma put_after_short_read_is_accepted :
  let first := zip.Put calm empty_world (fresh_zip_fs "test.zip")
                 (repeat x00 50) (source "big.bin" 100) in
  first.2 = Err (Wrap "zip put: failed to copy file" EOF)
  /\ zip.f_zw first.1.2
     = Some {| zip.zw_handle := "test.zip"; zip.zw_dir := [0];
               zip.zw_last := Some zip.Store; zip.zw_count := 50 |}
  /\ is_Ok (zip.Put calm first.1.1 first.1.2 [x01; x02; x03] (source "small.bin" 3)).2
     = true.
Proof. vm_compute. repeat split; reflexivity. Qed.

(** C5, amended. [Put] returns an error and no object when the declared
    size is negative, and when the stream ends before the declared size;
    after such a short read the session stays open (handle and encoder
    kept), and the next entry with a complete stream is accepted. *)
Theorem Put_errors env w f (in_ : Reader) src :
  ((src_Size src < 0)%Z ->
   zip.Put env w f in_ src = (w, f, Err (ErrMsg "can't zip unknown sized objects")))
  /\ ((0 <= src_Size src)%Z -> (Z.of_nat (length in_) < src_Size src)%Z ->
      (exists e, (zip.Put env w f in_ src).2 = Err e)
      /\ (zip.env_OpenFile env = None ->
          exists zw, zip.f_zw (zip.Put env w f in_ src).1.2 = Some zw
            /\ forall (in2 : Reader) src2,
                 (0 <= src_Size src2 <= Z.of_nat (length in2))%Z ->
                 exists o, (zip.Put calm (zip.Put env w f in_ src).1.1
                              (zip.Put env w f in_ src).1.2 in2 src2).2 = Ok o)).
Proof.
  split; [apply Put_unknown_size |].
  intros Hsize Hshort. split; [by apply Put_short_read |].
  intros Hopen.
  destruct (Put_keeps_session env w f in_ src Hsize Hopen) as [zw Hzw].
  exists zw. split; [done |].
  intros in2 src2 Hsize2.
  destruct (Put_accepts (zip.Put env w f in_ src).1.1 _ zw in2 src2 Hzw Hsize2)
    as (o & Ho & _).
  eauto.
Qed.

Lemma Put_errors_witness :
  (zip.Put calm empty_world (fresh_zip_fs "test.zip") [x00] (source "a" (-1))).2
    = Err (ErrMsg "can't zip unknown sized objects")
  /\ exists e, (zip.Put calm empty_world (fresh_zip_fs "test.zip")
                  (repeat x00 50) (source "big.bin" 100)).2 = Err e.
Proof.
  destruct (Put_errors calm empty_world (fresh_zip_fs "test.zip") [x00] (source "a" (-1)))
    as [Hneg _].
  destruct (Put_errors calm empty_world (fresh_zip_fs "test.zip")
              (repeat x00 50) (source "big.bin" 100)) as [_ Hshort].
  split.
  - rewrite Hneg; [reflexivity | simpl; lia].
  - apply Hshort; simpl; lia.
Defined.

(** What an accepted entry leaves behind on a fresh session: the local
    header and the data go out under [Store], whatever the size, and the
    header the object and the directory share ends with the method
    chosen from the size. *)
Lemma Put_fresh_session w f (in_ : Reader) src :
  zip.f_zw f = None ->
  (0 <= src_Size src <= Z.of_nat (length in_))%Z ->
  let r := zip.Put calm w f in_ src in
  zip.files r.1.1 !! zip.f_remote f = Some (entry_chunks src in_)
  /\ exists o, r.2 = Ok o
       /\ zip.fh_Method (zip.o_fh o) = chosen_method (src_Size src)
       /\ zip.heap r.1.1 !! length (zip.heap w) = Some (zip.o_fh o).
Proof.
  intros Hzw Hsize. unfold zip.Put, GoIO.CopyN. rewrite Hzw.
  destruct (Z.ltb_spec (src_Size src) 0); [lia |].
  destruct (Z.ltb_spec (Z.of_nat (length in_)) (src_Size src)); [lia |].
  cbn -[zip.header_at zip.set_Method Z.ltb].
  unfold zip.header_at at 1 2 3. cbn -[zip.header_at zip.set_Method Z.ltb].
  rewrite lookup_app_r, Nat.sub_diag by lia. cbn -[zip.header_at zip.set_Method Z.ltb].
  split.
  - unfold zip.write_chunks, zip.set_Method. simpl.
    rewrite lookup_insert_eq. simpl. rewrite lookup_insert_eq. simpl.
    by rewrite lookup_insert_eq.
  - eexists. split; [reflexivity |]. simpl.
    unfold zip.write_chunks at 1. unfold zip.header_at. simpl.
    rewrite list_lookup_alter_eq, lookup_app_r, Nat.sub_diag by lia. simpl.
    split; reflexivity.
Qed.

(** C6. The method chosen from the size is not the one the entry is
    serialized with: [Put] assigns it after [CreateHeader] has written
    the local header and installed the compressor. A 10-byte entry goes
    out under [Store], header and data, while its header, and with it the
    central directory written on close, says [Deflate]. *)
Theorem Put_method_assigned_after_CreateHeader :
  let content := take 10 bytes20 in
  let r := zip.Put calm empty_world (fresh_zip_fs "test.zip") content (source "f.bin" 10) in
  chosen_method 10 = zip.Deflate
  /\ zip.files r.1.1 !! "test.zip"
     = Some [zip.LocalHeader "f.bin" zip.Store; zip.FileData zip.Store content]
  /\ zip.fh_Method <$> (zip.o_fh <$> (match r.2 with Ok o => Some o | _ => None end))
     = Some zip.Deflate
  /\ (fun zw => zip.files (zip.Close zw r.1.1) !! "test.zip") <$> zip.f_zw r.1.2
     = Some (Some [zip.LocalHeader "f.bin" zip.Store; zip.FileData zip.Store content;
                   zip.DataDescriptor 10; zip.CentralHeader "f.bin" zip.Deflate]).
Proof. vm_compute. repeat split; reflexivity. Qed.

Example Put_small_entry :
  let r := zip.Put calm empty_world (fresh_zip_fs "test.zip") (take 9 bytes20) (source "s.bin" 9) in
  chosen_method 9 = zip.Store
  /\ zip.files r.1.1 !! "test.zip"
     = Some [zip.LocalHeader "s.bin" zip.Store; zip.FileData zip.Store (take 9 bytes20)].
Proof. vm_compute. split; reflexivity. Qed.

(** ** The write session is opened once *)

Lemma extends_refl w : extends w w.
Proof. intros path old Hold. exists []. by rewrite app_nil_r. Qed.

Lemma extends_trans w1 w2 w3 : extends w1 w2 -> extends w2 w3 -> extends w1 w3.
Proof.
  intros H12 H23 path old Hold.
  destruct (H12 path old Hold) as [cs1 H1].
  destruct (H23 path _ H1) as [cs2 H2].
  exists (cs1 ++ cs2)%list. by rewrite app_assoc.
Qed.

Lemma extends_write_chunks h cs w : extends w (zip.write_chunks h cs w).
Proof.
  intros path old Hold. unfold zip.write_chunks. simpl.
  destruct (decide (h = path)) as [-> | Hne].
  - exists cs. by rewrite lookup_insert_eq, Hold.
  - exists []. by rewrite lookup_insert_ne, app_nil_r.
Qed.

Lemma extends_same_files w w' : zip.files w' = zip.files w -> extends w w'.
Proof. intros Heq path old Hold. exists []. by rewrite Heq, app_nil_r. Qed.

(** On an open session, [Put] never calls [OpenFile], keeps the handle
    and the encoder's target and directory, and only appends. *)
Lemma Put_open_session env w f zw (in_ : Reader) src :
  zip.f_zw f = Some zw ->
  let r := zip.Put env w f in_ src in
  zip.opened r.1.1 = zip.opened w
  /\ zip.atexit r.1.1 = zip.atexit w
  /\ zip.f_wh r.1.2 = zip.f_wh f
  /\ (exists zw', zip.f_zw r.1.2 = Some zw'
        /\ zip.zw_handle zw' = zip.zw_handle zw
        /\ exists ps, zip.zw_dir zw' = (zip.zw_dir zw ++ ps)%list)
  /\ extends w r.1.1.
Proof.
  intros Hzw. unfold zip.Put. rewrite Hzw.
  destruct (src_Size src <? 0)%Z.
  { simpl. repeat split; try done.
    - exists zw. repeat split; try done. exists []. by rewrite app_nil_r.
    - apply extends_refl. }
  destruct (zip.env_CreateHeader env).
  { simpl. repeat split; try done.
    - exists zw. repeat split; try done. exists []. by rewrite app_nil_r.
    - by apply extends_same_files. }
  cbn -[zip.header_at zip.set_Method zip.write_chunks GoIO.CopyN].
  assert (Hext : extends w
    (zip.write_chunks (zip.zw_handle zw)
       [zip.FileData
          (zip.fh_Method (zip.header_at (zip.FileInfoHeader src w).1 (length (zip.heap w))))
          (GoIO.CopyN in_ (src_Size src)).1]
       (zip.set_Method (length (zip.heap w)) (chosen_method (src_Size src))
          (zip.write_chunks (zip.zw_handle zw)
             (zip.close_last zw ++
              [zip.LocalHeader
                 (zip.fh_Name (zip.header_at (zip.FileInfoHeader src w).1 (length (zip.heap w))))
                 (zip.fh_Method (zip.header_at (zip.FileInfoHeader src w).1 (length (zip.heap w))))])
             (zip.FileInfoHeader src w).1)))).
  { eapply extends_trans; [| apply extends_write_chunks].
    eapply extends_trans; [| by apply extends_same_files].
    eapply extends_trans; [| apply extends_write_chunks].
    by apply extends_same_files. }
  destruct (GoIO.CopyN in_ (src_Size src)).2; simpl;
    (repeat split; try done;
     eexists; repeat split; try done; by exists [length (zip.heap w)]).
Qed.

(** On an idle session, an entry of known size has [Put] call [OpenFile]
    once, with create-and-truncate: what the destination held is gone,
    and it holds what this entry sends. *)
Lemma Put_idle_session env w f (in_ : Reader) src :
  zip.f_zw f = None -> (0 <= src_Size src)%Z -> zip.env_OpenFile env = None ->
  let r := zip.Put env w f in_ src in
  zip.opened r.1.1 = (zip.opened w ++ [zip.f_remote f])%list
  /\ zip.f_wh r.1.2 = Some (zip.f_remote f)
  /\ (exists zw, zip.f_zw r.1.2 = Some zw /\ zip.zw_handle zw = zip.f_remote f)
  /\ zip.files r.1.1 !! zip.f_remote f
     = Some (match zip.env_CreateHeader env with
             | Some _ => []
             | None => entry_chunks src in_
             end).
Proof.
  intros Hzw Hsize Hopen. unfold zip.Put, GoIO.CopyN. rewrite Hzw, Hopen.
  destruct (Z.ltb_spec (src_Size src) 0); [lia |].
  destruct (zip.env_CreateHeader env).
  { simpl. repeat split; try done; [by eexists | by rewrite lookup_insert_eq]. }
  cbn -[zip.header_at zip.set_Method Z.ltb].
  unfold zip.header_at at 1 2 3. cbn -[zip.header_at zip.set_Method Z.ltb].
  rewrite lookup_app_r, Nat.sub_diag by lia. cbn -[zip.header_at zip.set_Method Z.ltb].
  destruct (Z.of_nat (length in_) <? src_Size src)%Z; simpl;
    (repeat split; try done; [by eexists |];
     unfold zip.header_at; simpl;
     rewrite ?list_lookup_alter_eq, ?lookup_app_r, ?Nat.sub_diag by lia; simpl;
     rewrite lookup_insert_eq; simpl; rewrite lookup_insert_eq; simpl;
     by rewrite lookup_insert_eq).
Qed.

(** C9. A put on an idle session opens the destination once with
    create-and-truncate, so that nothing stored there before remains; a
    put on an open session makes no [OpenFile] call, keeps the handle and
    the encoder, and leaves every file's content in place as a prefix of
    what it holds afterwards. *)
Theorem Put_opens_destination_once env w f (in_ : Reader) src :
  (zip.f_zw f = None -> (0 <= src_Size src)%Z -> zip.env_OpenFile env = None ->
   let r := zip.Put env w f in_ src in
   zip.opened r.1.1 = (zip.opened w ++ [zip.f_remote f])%list
   /\ zip.f_wh r.1.2 = Some (zip.f_remote f)
   /\ (exists zw, zip.f_zw r.1.2 = Some zw /\ zip.zw_handle zw = zip.f_remote f)
   /\ zip.files r.1.1 !! zip.f_remote f
      = Some (match zip.env_CreateHeader env with
              | Some _ => []
              | None => entry_chunks src in_
              end))
  /\ (forall zw, zip.f_zw f = Some zw ->
      let r := zip.Put env w f in_ src in
      zip.opened r.1.1 = zip.opened w
      /\ zip.atexit r.1.1 = zip.atexit w
      /\ zip.f_wh r.1.2 = zip.f_wh f
      /\ (exists zw', zip.f_zw r.1.2 = Some zw'
            /\ zip.zw_handle zw' = zip.zw_handle zw
            /\ exists ps, zip.zw_dir zw' = (zip.zw_dir zw ++ ps)%list)
      /\ extends w r.1.1).
Proof.
  split; [apply Put_idle_session | intros zw; apply Put_open_session].
Qed.

Lemma Put_opens_destination_once_witness :
  let first := zip.Put calm stale_world (fresh_zip_fs "test.zip") [x00; x01] (source "a.bin" 2) in
  let second := zip.Put calm first.1.1 first.1.2 [x02] (source "b.bin" 1) in
  zip.files stale_world !! "test.zip" = Some [zip.Stale x50; zip.Stale x4b]
  /\ zip.files first.1.1 !! "test.zip" = Some (entry_chunks (source "a.bin" 2) [x00; x01])
  /\ zip.opened first.1.1 = ["test.zip"]
  /\ zip.opened second.1.1 = ["test.zip"]
  /\ extends first.1.1 second.1.1.
Proof.
  intros first second.
  destruct (Put_opens_destination_once calm stale_world (fresh_zip_fs "test.zip")
              [x00; x01] (source "a.bin" 2)) as [Hidle _].
  destruct Hidle as (Hopened & _ & _ & Hfiles); [reflexivity | simpl; lia | reflexivity |].
  destruct (Put_opens_destination_once calm first.1.1 first.1.2 [x02] (source "b.bin" 1))
    as [_ Hopen].
  edestruct Hopen as (Hopened2 & _ & _ & _ & Hext); [vm_compute; reflexivity |].
  split; [reflexivity |].
  split; [exact Hfiles |].
  split; [exact Hopened |].
  split; [| exact Hext].
  fold second in Hopened2. rewrite Hopened2. exact Hopened.
Defined.

(** ** [List] and [NewObject] *)

Section find.
Context {T : Type} `{Remoter T}.

Lemma elem_of_children (dt : DirTree T) dirPath e :
  e ∈ children dt dirPath <-> exists es, dt !! dirPath = Some es /\ e ∈ es.
Proof.
  unfold children. destruct (dt !! dirPath) as [es |]; simpl.
  - split; [eauto | by intros (? & [= <-] & ?)].
  - split; [by intros ?%elem_of_nil | by intros (? & ? & ?)].
Qed.

Lemma Find_Some (dt : DirTree T) filePath e :
  (Find dt filePath).2 = Some e ->
  e ∈ children dt (parentDir filePath) /\ entry_Remote e = filePath.
Proof.
  unfold Find. simpl. intros [Hin Heq]%find_some.
  split; [by apply list_elem_of_In | by apply String.eqb_eq].
Qed.

Lemma Find_None (dt : DirTree T) filePath :
  (Find dt filePath).2 = None ->
  forall e, e ∈ children dt (parentDir filePath) -> entry_Remote e <> filePath.
Proof.
  unfold Find. simpl. intros Hnone e Hin%list_elem_of_In.
  apply (find_none _ _ Hnone) in Hin. by apply String.eqb_neq.
Qed.

(** In a tree whose entries sit under their parents, the scan of the
    parent's list sees every entry of the tree with the wanted path. *)
Lemma in_tree_children (dt : DirTree T) e :
  well_placed dt -> in_tree dt e -> e ∈ children dt (parentDir (entry_Remote e)).
Proof.
  intros Hwp (dirPath & es & Hes & Hin).
  rewrite <- (Hwp _ _ _ Hes Hin). apply elem_of_children. eauto.
Qed.

Lemma children_in_tree (dt : DirTree T) dirPath e :
  e ∈ children dt dirPath -> in_tree dt e.
Proof. intros (es & ? & ?)%elem_of_children. by exists dirPath, es. Qed.

End find.

(** Paths held by entries of one kind. [List] is the lookup of [dir]
    among the keys of the tree, and nothing else; [NewObject] answers
    not-found for a path no entry of the tree has, the file for a path
    that a file and no directory has, and not-a-file for a path that a
    directory and no file has. *)
Lemma List_and_NewObject (f : zip.Fs) (dt : DirTree zip.Object) :
  zip.f_dt f = Some dt ->
  (forall dir,
     zip.List f dir = match dt !! dir with
                      | Some entries => Ok entries
                      | None => Err ErrorDirNotFound
                      end)
  /\ (forall path,
        (forall e, in_tree dt e -> entry_Remote e <> path) ->
        zip.NewObject f path = Err ErrorObjectNotFound)
  /\ (well_placed dt ->
      forall path o,
        in_tree dt (EObj o) -> zip.o_remote o = path ->
        (forall d, in_tree dt (EDir d) -> dir_remote d <> path) ->
        exists o', zip.NewObject f path = Ok o'
                   /\ in_tree dt (EObj o') /\ zip.o_remote o' = path)
  /\ (well_placed dt ->
      forall path d,
        in_tree dt (EDir d) -> dir_remote d = path ->
        (forall o, in_tree dt (EObj o) -> zip.o_remote o <> path) ->
        zip.NewObject f path = Err ErrorNotAFile).
Proof.
  intros Hdt. unfold zip.List, zip.NewObject. rewrite Hdt.
  split; [done |]. split; [| split].
  - intros path Habsent.
    destruct (Find dt path).2 as [e |] eqn:Hfind; [| done].
    apply Find_Some in Hfind as [Hin Heq].
    by apply children_in_tree, Habsent in Hin.
  - intros Hwp path o Hin Hremote Hnodir.
    pose proof (in_tree_children dt _ Hwp Hin) as Hchild. simpl in Hchild.
    change (Remote o) with (zip.o_remote o) in Hchild. rewrite Hremote in Hchild.
    destruct (Find dt path).2 as [[d | o'] |] eqn:Hfind.
    + apply Find_Some in Hfind as [Hin' Heq].
      by apply children_in_tree, Hnodir in Hin'.
    + apply Find_Some in Hfind as [Hin' Heq].
      exists o'. split; [done |]. split; [by eapply children_in_tree | done].
    + eapply Find_None in Hfind; [| exact Hchild]. simpl in Hfind.
      by destruct Hfind.
  - intros Hwp path d Hin Hremote Hnofile.
    pose proof (in_tree_children dt _ Hwp Hin) as Hchild. simpl in Hchild.
    rewrite Hremote in Hchild.
    destruct (Find dt path).2 as [[d' | o'] |] eqn:Hfind.
    + done.
    + apply Find_Some in Hfind as [Hin' Heq].
      by apply children_in_tree, Hnofile in Hin'.
    + eapply Find_None in Hfind; [| exact Hchild]. simpl in Hfind.
      by destruct Hfind.
Qed.

Lemma zip_queries_without_tree (f : zip.Fs) dir path :
  zip.f_dt f = None ->
  zip.List f dir = Err ErrorDirNotFound
  /\ zip.NewObject f path = Err ErrorObjectNotFound.
Proof. intros Hdt. unfold zip.List, zip.NewObject. by rewrite Hdt. Qed.

(** ** A parent is shorter than its child *)

Lemma cost_app (a b : list string) : cost (a ++ b) = cost a + cost b.
Proof. induction a as [| x a IH]; simpl; [done | lia]. Qed.

Lemma cost_rev (l : list string) : cost (rev l) = cost l.
Proof. induction l as [| x l IH]; simpl; [done |]. rewrite cost_app. simpl. lia. Qed.

Lemma cost_split (s : string) : cost (split s) = S (String.length s).
Proof.
  induction s as [| c s IH]; [done |]. simpl.
  destruct (is_slash c); simpl; [lia |].
  destruct (split s) as [| h t]; simpl in *; lia.
Qed.

Lemma length_join (l : list string) : l <> [] -> S (String.length (join l)) = cost l.
Proof.
  induction l as [| x l IH]; [done |]. intros _.
  destruct l as [| y l]; [simpl; lia |].
  change (join (x :: y :: l)) with (x ++ String "/" (join (y :: l))).
  rewrite length_app_s.
  change (String.length (String "/" (join (y :: l))))
    with (S (String.length (join (y :: l)))).
  change (cost (x :: y :: l)) with (S (String.length x) + cost (y :: l)).
  specialize (IH ltac:(done)). lia.
Qed.

Lemma clean_step_cost rooted out elem :
  cost (clean_step rooted out elem) + (if String.eqb elem "" then 1 else 0)
  <= cost out + S (String.length elem).
Proof.
  unfold clean_step.
  destruct (String.eqb_spec elem "") as [-> |]; [simpl; lia |].
  destruct (String.eqb_spec elem ".") as [-> |]; [simpl; lia |].
  destruct (String.eqb_spec elem "..") as [-> |]; [| simpl; lia].
  destruct out as [| top rest]; [destruct rooted; simpl; lia |].
  destruct (String.eqb top ".."), rooted; simpl; lia.
Qed.

Lemma clean_fold_cost rooted elems out :
  cost (fold_left (clean_step rooted) elems out) + count_empty elems
  <= cost out + cost elems.
Proof.
  revert out. induction elems as [| e elems IH]; intros out; simpl; [lia |].
  specialize (IH (clean_step rooted out e)).
  pose proof (clean_step_cost rooted out e). lia.
Qed.

Lemma length_dir_part (p : string) : String.length (dir_part p) <= String.length p.
Proof.
  induction p as [| c p IH]; [done |]. simpl.
  destruct (is_slash c || has_slash p); simpl; lia.
Qed.

Lemma dir_part_has_slash (p : string) : has_slash p = true -> dir_part p <> "".
Proof. destruct p as [| c p]; [done |]. simpl. by intros ->. Qed.

(** A directory part ends with a slash: its last element is empty. *)
Lemma split_dir_part (p : string) :
  dir_part p <> "" ->
  exists h t, split (dir_part p) = h :: t /\ 1 <= count_empty t.
Proof.
  induction p as [| c p IH]; [done |]. simpl.
  destruct (is_slash c) eqn:Hc; simpl.
  - intros _. rewrite Hc. exists "", (split (dir_part p)). split; [done |].
    destruct (String.eqb_spec (dir_part p) "") as [-> | Hne]; [simpl; lia |].
    destruct (IH Hne) as (h & t & -> & Ht). simpl. lia.
  - destruct (has_slash p) eqn:Hp; [| done]. intros _. simpl. rewrite Hc.
    destruct (IH (dir_part_has_slash p Hp)) as (h & t & -> & Ht). eauto.
Qed.

Lemma split_rooted (d : string) h t :
  is_rooted d = true -> split d = h :: t -> h = "".
Proof.
  destruct d as [| c d]; [done |]. simpl. intros ->. by intros [= <- _].
Qed.

Lemma is_rooted_dir_part (p : string) :
  is_rooted (dir_part p) = true -> is_rooted p = true.
Proof.
  destruct p as [| c p]; [done |]. simpl.
  by destruct (is_slash c || has_slash p).
Qed.

Lemma parentDir_shorter (p : string) :
  p <> "" -> p <> "/" -> String.length (parentDir p) < String.length p.
Proof.
  intros Hne Hroot.
  assert (Hlen : 0 < String.length p) by (destruct p; [done | simpl; lia]).
  unfold parentDir, Dir, Clean.
  destruct (String.eqb_spec (dir_part p) "") as [| Hd]; [done |].
  destruct (split_dir_part p Hd) as (h & t & Hsplit & Ht).
  pose proof (clean_fold_cost (is_rooted (dir_part p)) (split (dir_part p)) []) as Hcost.
  rewrite cost_split in Hcost. pose proof (length_dir_part p) as Hdp.
  set (out := fold_left (clean_step (is_rooted (dir_part p))) (split (dir_part p)) []) in *.
  destruct (is_rooted (dir_part p)) eqn:Hrooted.
  - rewrite (split_rooted _ _ _ Hrooted Hsplit) in Hsplit.
    rewrite Hsplit in Hcost. simpl in Hcost.
    simpl String.eqb. cbn iota. simpl String.length.
    destruct (decide (out = [])) as [-> | Hout].
    + simpl. apply is_rooted_dir_part in Hrooted.
      destruct p as [| c [| c' p]]; simpl in *; [done | | lia].
      unfold is_slash in Hrooted. by apply Ascii.eqb_eq in Hrooted as ->.
    + pose proof (length_join (rev out)) as Hj. rewrite cost_rev in Hj.
      assert (Hrev : rev out <> []).
      { intros Hnil. apply (f_equal (@rev string)) in Hnil.
        by rewrite rev_involutive in Hnil. }
      specialize (Hj Hrev). lia.
  - rewrite Hsplit in Hcost. simpl in Hcost.
    destruct (String.eqb_spec (join (rev out)) "") as [| Hbody]; [simpl; lia |].
    assert (Hrev : rev out <> []) by (intros Hnil; by rewrite Hnil in Hbody).
    pose proof (length_join (rev out) Hrev) as Hj. rewrite cost_rev in Hj.
    assert (String.length (join (rev out)) < String.length p)
      by (destruct (String.eqb h ""); lia).
    destruct (String.eqb (join (rev out)) "."); [simpl; lia | done].
Qed.

(** ** The tree operations *)

Section tree_facts.
Context {T : Type} `{Remoter T}.
Implicit Types (dt : DirTree T) (e : DirEntry T) (st : DirTree T * gset string).

Lemma lookup_append_child dt k e k' :
  append_child k e dt !! k'
  = if decide (k = k') then Some (children dt k ++ [e])%list else dt !! k'.
Proof. unfold append_child. by rewrite lookup_insert. Qed.

Lemma is_key_append_child dt k e k' :
  is_key (append_child k e dt) k' <-> k' = k \/ is_key dt k'.
Proof.
  unfold is_key. rewrite lookup_append_child.
  destruct (decide (k = k')) as [-> | Hne]; [split; eauto |].
  split; [eauto | by intros [-> | ?]].
Qed.

Lemma in_tree_append_child dt k e e' :
  in_tree (append_child k e dt) e' <-> e' = e \/ in_tree dt e'.
Proof.
  split.
  - intros (k' & es & Hes & Hin). rewrite lookup_append_child in Hes.
    destruct (decide (k = k')) as [-> | Hne].
    + injection Hes as <-. apply elem_of_app in Hin as [Hin | Hin].
      * right. by eapply children_in_tree.
      * left. by apply list_elem_of_singleton in Hin.
    + right. by exists k', es.
  - intros [-> | (k' & es & Hes & Hin)].
    + exists k, (children dt k ++ [e])%list.
      rewrite lookup_append_child, decide_True by done.
      split; [done |]. apply elem_of_app. right. by apply list_elem_of_singleton.
    + destruct (decide (k = k')) as [-> | Hne].
      * exists k', (children dt k' ++ [e])%list.
        rewrite lookup_append_child, decide_True by done.
        split; [done |]. apply elem_of_app. left. apply elem_of_children. eauto.
      * exists k', es. by rewrite lookup_append_child, decide_False.
Qed.

Lemma well_placed_append_child dt e :
  well_placed dt -> well_placed (append_child (parentDir (entry_Remote e)) e dt).
Proof.
  intros Hwp k es e' Hes Hin. rewrite lookup_append_child in Hes.
  destruct (decide (parentDir (entry_Remote e) = k)) as [<- | Hne].
  - injection Hes as <-. apply elem_of_app in Hin as [Hin | Hin].
    + apply elem_of_children in Hin as (es' & Hes' & Hin). by eapply Hwp.
    + by apply list_elem_of_singleton in Hin as ->.
  - by eapply Hwp.
Qed.

Lemma well_placed_New : well_placed (New : DirTree T).
Proof. intros k es e Hes. unfold New in Hes. by rewrite lookup_empty in Hes. Qed.

Lemma in_tree_New e : ~ in_tree (New : DirTree T) e.
Proof. intros (k & es & Hes & _). unfold New in Hes. by rewrite lookup_empty in Hes. Qed.

Lemma in_tree_Add dt e e' : in_tree (Add e dt) e' <-> e' = e \/ in_tree dt e'.
Proof. apply in_tree_append_child. Qed.

Lemma well_placed_Add dt e : well_placed dt -> well_placed (Add e dt).
Proof. apply well_placed_append_child. Qed.

Lemma in_tree_insert_nil dt k e :
  dt !! k = None -> in_tree (<[k := []]> dt) e <-> in_tree dt e.
Proof.
  intros Hk. split; intros (k' & es & Hes & Hin).
  - destruct (decide (k = k')) as [-> | Hne].
    + rewrite lookup_insert_eq in Hes. injection Hes as <-. by apply elem_of_nil in Hin.
    + rewrite lookup_insert_ne in Hes by done. by exists k', es.
  - exists k', es. split; [| done].
    rewrite lookup_insert_ne; [done |]. intros ->. by rewrite Hk in Hes.
Qed.

Lemma in_tree_AddDir dt e e' :
  in_tree (AddDir e dt) e' <-> (entry_Remote e <> "" /\ e' = e) \/ in_tree dt e'.
Proof.
  unfold AddDir. destruct (String.eqb_spec (entry_Remote e) "") as [Heq | Hne].
  { split; [eauto | by intros [[? _] | ?]]. }
  destruct (Add e dt !! entry_Remote e) eqn:Hk.
  - rewrite in_tree_Add. tauto.
  - rewrite in_tree_insert_nil, in_tree_Add by done. tauto.
Qed.

Lemma well_placed_AddDir dt e : well_placed dt -> well_placed (AddDir e dt).
Proof.
  intros Hwp. unfold AddDir. destruct (String.eqb (entry_Remote e) ""); [done |].
  pose proof (well_placed_Add dt e Hwp) as Hwp'.
  destruct (Add e dt !! entry_Remote e) eqn:Hk; [done |].
  intros k es e' Hes Hin.
  destruct (decide (entry_Remote e = k)) as [<- | Hne].
  - rewrite lookup_insert_eq in Hes. injection Hes as <-. by apply elem_of_nil in Hin.
  - rewrite lookup_insert_ne in Hes by done. by eapply Hwp'.
Qed.

(** An entry of the tree has its parent among the keys. *)
Lemma in_tree_parent_key dt e :
  well_placed dt -> in_tree dt e -> is_key dt (parentDir (entry_Remote e)).
Proof.
  intros Hwp (k & es & Hes & Hin). rewrite <- (Hwp _ _ _ Hes Hin).
  unfold is_key. by rewrite Hes.
Qed.

End tree_facts.

(** ** The walk of [CheckParents] *)

Section walk_facts.
Context {T : Type} `{Remoter T}.
Implicit Types (dt : DirTree T) (e : DirEntry T) (st : DirTree T * gset string).

Lemma walk_grows_refl st : walk_grows st st.
Proof. unfold walk_grows. repeat split; eauto. Qed.

Lemma walk_grows_trans st1 st2 st3 :
  walk_grows st1 st2 -> walk_grows st2 st3 -> walk_grows st1 st3.
Proof.
  intros (Hd1 & Hk1 & He1 & Hf1) (Hd2 & Hk2 & He2 & Hf2).
  repeat split.
  - set_solver.
  - eauto.
  - eauto.
  - intros e He. destruct (Hf2 e He) as [He' | ?]; eauto.
Qed.

(** One step of the walk: a directory entry for [dirPath] is put under
    its parent and [dirPath] is recorded. *)
Lemma walk_step now dirPath st :
  walk_inv st ->
  let st' := (append_child (parentDir dirPath) (EDir (NewDir dirPath now)) st.1,
              {[dirPath]} ∪ st.2) in
  walk_inv st' /\ walk_grows st st'.
Proof.
  intros [Hwp Hrec]. simpl. split.
  - split; simpl.
    + apply (well_placed_append_child st.1 (EDir (NewDir dirPath now)) Hwp).
    + intros d [->%elem_of_singleton | Hd]%elem_of_union;
        apply is_key_append_child; eauto.
  - repeat split; simpl.
    + set_solver.
    + intros k Hk. apply is_key_append_child. eauto.
    + intros e He. apply in_tree_append_child. eauto.
    + intros e [-> | He]%in_tree_append_child; eauto.
Qed.

Lemma parentDir_fixed_or_shorter (p : string) :
  parentDir p = p \/ String.length (parentDir p) < String.length p.
Proof.
  destruct (String.eqb_spec p "") as [-> | Hne]; [by left |].
  destruct (String.eqb_spec p "/") as [-> | Hroot]; [by left |].
  right. by apply parentDir_shorter.
Qed.

Lemma checkParent_recorded now root fuel dirPath st :
  dirPath ∈ st.2 -> checkParent now (S fuel) root dirPath st = st.
Proof.
  intros Hin. simpl. destruct (String.eqb dirPath root); [done |].
  by destruct (decide (dirPath ∈ st.2)).
Qed.

(** With the fuel [CheckParents] gives it, the walk from [dirPath] ends
    by itself: at the root or at a recorded directory. Every key it adds
    is the root or recorded. *)
Lemma checkParent_spec now root fuel dirPath st :
  String.length dirPath + 2 <= fuel ->
  walk_inv st ->
  let st' := checkParent now fuel root dirPath st in
  walk_inv st' /\ walk_grows st st'
  /\ (dirPath = root \/ dirPath ∈ st'.2)
  /\ (forall k, is_key st'.1 k -> is_key st.1 k \/ k = root \/ k ∈ st'.2).
Proof.
  revert dirPath st. induction fuel as [| fuel IH]; intros dirPath st Hfuel Hinv; [lia |].
  simpl.
  destruct (String.eqb_spec dirPath root) as [-> | Hne].
  { split_and!; [done | apply walk_grows_refl | by left | by left]. }
  destruct (decide (dirPath ∈ st.2)) as [Hin | Hnin].
  { split_and!; [done | apply walk_grows_refl | by right | by left]. }
  destruct (walk_step now dirPath st Hinv) as [Hinv1 Hgrows1].
  set (st1 := (append_child (parentDir dirPath) (EDir (NewDir dirPath now)) st.1,
               {[dirPath]} ∪ st.2)) in *.
  assert (Hrecorded : dirPath ∈ st1.2) by (apply elem_of_union_l, elem_of_singleton; done).
  assert (Hparent : forall k, is_key st1.1 k -> is_key st.1 k \/ k = parentDir dirPath).
  { intros k [-> | Hk]%is_key_append_child; eauto. }
  destruct (parentDir_fixed_or_shorter dirPath) as [Hfix | Hshort].
  - (* the path is its own parent: the next look finds it recorded *)
    rewrite Hfix in *. destruct fuel as [| fuel]; [lia |].
    rewrite checkParent_recorded by done.
    split_and!; [done | done | by right |].
    intros k Hk. destruct (Hparent k Hk) as [? | ->]; [by left | by right; right].
  - destruct (IH (parentDir dirPath) st1 ltac:(lia) Hinv1)
      as (Hinv' & Hgrows' & Hend & Hnew).
    split_and!; [done | by eapply walk_grows_trans | |].
    + right. destruct Hgrows' as (Hsub & _). by apply Hsub.
    + intros k Hk. destruct (Hnew k Hk) as [Hk1 | ?]; [| by right].
      destruct (Hparent k Hk1) as [? | ->]; [by left | by right].
Qed.

Lemma all_dirs_recorded dt d :
  well_placed dt -> d ∈ all_dirs dt -> is_key dt (parentDir d).
Proof.
  intros Hwp Hd. unfold all_dirs in Hd.
  apply elem_of_list_to_set, list_elem_of_In, in_flat_map in Hd
    as ([k es] & Hkv & Hin).
  apply list_elem_of_In, elem_of_map_to_list in Hkv.
  unfold dir_remotes in Hin. simpl in Hin.
  apply in_map_iff in Hin as (e & <- & [He _]%filter_In).
  apply in_tree_parent_key; [done |].
  exists k, es. split; [done | by apply list_elem_of_In].
Qed.

Lemma walk_fold_spec now root ks st :
  walk_inv st ->
  let st' := fold_left
               (fun st dirPath => checkParent now (walk_fuel dirPath) root dirPath st)
               ks st in
  walk_inv st' /\ walk_grows st st'
  /\ (forall k, k ∈ ks -> k = root \/ k ∈ st'.2)
  /\ (forall k, is_key st'.1 k -> is_key st.1 k \/ k = root \/ k ∈ st'.2).
Proof.
  revert st. induction ks as [| dirPath ks IH]; intros st Hinv; simpl.
  { split_and!; [done | apply walk_grows_refl | by intros k ?%elem_of_nil | by left]. }
  destruct (checkParent_spec now root (walk_fuel dirPath) dirPath st)
    as (Hinv1 & Hgrows1 & Hend1 & Hnew1); [unfold walk_fuel; lia | done |].
  destruct (IH _ Hinv1) as (Hinv' & Hgrows' & Hends & Hnew').
  split_and!; [done | by eapply walk_grows_trans | |].
  - intros k [-> | Hk]%elem_of_cons; [| by apply Hends].
    destruct Hend1 as [-> | Hin]; [by left |].
    right. destruct Hgrows' as (Hsub & _). by apply Hsub.
  - intros k Hk. destruct (Hnew' k Hk) as [Hk1 | ?]; [| by right].
    destruct (Hnew1 k Hk1) as [? | [-> | Hin]]; [by left | by right; left |].
    right. right. destruct Hgrows' as (Hsub & _). by apply Hsub.
Qed.

(** After [CheckParents] every key but the root has its parent among the
    keys; what was in the tree stays, and only directories are added. *)
Lemma CheckParents_spec now root dt :
  well_placed dt ->
  let dt' := CheckParents now root dt in
  well_placed dt'
  /\ (forall k, is_key dt k -> is_key dt' k)
  /\ (forall e, in_tree dt e -> in_tree dt' e)
  /\ (forall e, in_tree dt' e -> in_tree dt e \/ is_dir_entry e = true)
  /\ (forall k, is_key dt' k -> k = root \/ is_key dt' (parentDir k)).
Proof.
  intros Hwp. unfold CheckParents.
  destruct (walk_fold_spec now root (map fst (map_to_list dt)) (dt, all_dirs dt))
    as ([Hwp' Hrec] & (_ & Hkeys & Hin & Hout) & Hends & Hnew).
  { split; [done |]. intros d. by apply all_dirs_recorded. }
  split_and!; try done.
  intros k Hk.
  assert (Hcases : k = root \/ k ∈ (fold_left
            (fun st dirPath => checkParent now (walk_fuel dirPath) root dirPath st)
            (map fst (map_to_list dt)) (dt, all_dirs dt)).2).
  { destruct (Hnew k Hk) as [[es Hes] | [? | ?]]; [| by left | by right].
    apply Hends, list_elem_of_In, in_map_iff. exists (k, es).
    split; [done |]. by apply list_elem_of_In, elem_of_map_to_list. }
  destruct Hcases as [? | Hin']; [by left | right; by apply Hrec].
Qed.

Lemma elem_of_insert_by_name e x es :
  x ∈ insert_by_name e es <-> x = e \/ x ∈ es.
Proof.
  induction es as [| y es IH]; simpl.
  - rewrite list_elem_of_singleton. split; [by left | by intros [? | ?%elem_of_nil]].
  - destruct (String.ltb (entry_Remote e) (entry_Remote y)).
    + by rewrite elem_of_cons.
    + rewrite !elem_of_cons, IH. tauto.
Qed.

Lemma elem_of_sort_by_name x es : x ∈ sort_by_name es <-> x ∈ es.
Proof.
  unfold sort_by_name.
  assert (Hgen : forall acc,
            x ∈ fold_left (fun acc e => insert_by_name e acc) es acc <-> x ∈ es \/ x ∈ acc).
  { induction es as [| e es IH]; intros acc; simpl.
    - split; [by right | by intros [?%elem_of_nil | ?]].
    - rewrite IH, elem_of_insert_by_name, elem_of_cons. tauto. }
  rewrite Hgen. split; [by intros [? | ?%elem_of_nil] | by left].
Qed.

Lemma is_key_Sort dt k : is_key (Sort dt) k <-> is_key dt k.
Proof. unfold is_key, Sort. rewrite lookup_fmap. apply fmap_is_Some. Qed.

Lemma in_tree_Sort dt e : in_tree (Sort dt) e <-> in_tree dt e.
Proof.
  unfold in_tree, Sort. split.
  - intros (k & es & Hes & Hin). rewrite lookup_fmap in Hes.
    destruct (dt !! k) as [es' |] eqn:Hk; [| done]. injection Hes as <-.
    exists k, es'. split; [done | by apply elem_of_sort_by_name].
  - intros (k & es & Hes & Hin). exists k, (sort_by_name es).
    rewrite lookup_fmap, Hes. split; [done | by apply elem_of_sort_by_name].
Qed.

Lemma well_placed_Sort dt : well_placed dt -> well_placed (Sort dt).
Proof.
  intros Hwp k es e Hes Hin. unfold Sort in Hes. rewrite lookup_fmap in Hes.
  destruct (dt !! k) as [es' |] eqn:Hk; [| done]. injection Hes as <-.
  rewrite elem_of_sort_by_name in Hin. by eapply Hwp.
Qed.

(** The closure that the synthesis of ancestors gives: from an entry of
    the tree, every step to the parent stays among the keys. *)
Lemma parents_closed dt e n :
  well_placed dt ->
  (forall k, is_key dt k -> k = "" \/ is_key dt (parentDir k)) ->
  in_tree dt e -> 1 <= n ->
  is_key dt (Nat.iter n parentDir (entry_Remote e)).
Proof.
  intros Hwp Hclosed He Hn.
  induction n as [| n IH]; [lia |]. simpl.
  destruct n as [| n]; [simpl; by apply in_tree_parent_key |].
  specialize (IH ltac:(lia)).
  destruct (Hclosed _ IH) as [Hroot | Hk]; [| done].
  by rewrite Hroot in *.
Qed.

End walk_facts.

(** ** The loop of the namespace build *)

Lemma zip_loop_shared prefix root zrFile dt :
  zip.readZip_loop prefix root zrFile dt
  = build_loop (zip.entryPath prefix) zip_isDir zip_modTime zip.mkObject root zrFile dt.
Proof.
  revert dt. induction zrFile as [| file rest IH]; intros dt; simpl; [done |].
  destruct (trimRoot root (zip.entryPath prefix file)) as [remote |]; [| apply IH].
  unfold zip_isDir, zip_modTime.
  destruct (HasSuffix (zip.fh_Name (zip.file_FileHeader file)) "/"); [apply IH |].
  destruct (String.eqb remote ""); [done | apply IH].
Qed.

Lemma squashfs_loop_shared prefix root walk dt :
  squashfs.readSquashfs_loop prefix root walk dt
  = build_loop (squashfs.entryPath prefix) squashfs.we_IsDir squashfs.we_ModTime
      squashfs.mkObject root walk dt.
Proof.
  revert dt. induction walk as [| d rest IH]; intros dt; simpl; [done |].
  destruct (trimRoot root (squashfs.entryPath prefix d)) as [remote |]; [| apply IH].
  destruct (squashfs.we_IsDir d); [apply IH |].
  destruct (String.eqb remote ""); [done | apply IH].
Qed.

Section loop_facts.
Context {E T : Type} `{Remoter T}.
Variables (path : E -> string) (isDir : E -> bool) (modTime : E -> Z)
  (mk : string -> E -> T).
Hypothesis mk_remote : forall remote entry, Remote (mk remote entry) = remote.

#[local] Abbreviation loop := (build_loop path isDir modTime mk).
#[local] Abbreviation root_file := (is_root_file path isDir).

(** The first root file ends the loop: the tree built so far is dropped
    and the entries after it are not looked at. *)
Lemma loop_root_file root pre entry post dt :
  (forall x, x ∈ pre -> root_file root x = false) ->
  root_file root entry = true ->
  loop root (pre ++ entry :: post) dt
  = (Add (EObj (mk (Base root) entry)) New, true).
Proof.
  intros Hpre Hentry. revert dt.
  induction pre as [| x pre IH]; intros dt; simpl.
  - unfold is_root_file in Hentry.
    apply andb_true_iff in Hentry as [Hfile Hroot].
    apply bool_decide_eq_true in Hroot. rewrite Hroot.
    apply negb_true_iff in Hfile. by rewrite Hfile.
  - assert (Hx : root_file root x = false) by (apply Hpre; by left).
    assert (Hrest : forall y, y ∈ pre -> root_file root y = false)
      by (intros y Hy; apply Hpre; by right).
    unfold is_root_file in Hx.
    destruct (trimRoot root (path x)) as [remote |] eqn:Htrim; [| by apply IH].
    destruct (isDir x); [by apply IH |].
    destruct (String.eqb_spec remote "") as [-> | Hne]; [| by apply IH].
    by rewrite bool_decide_eq_true_2 in Hx.
Qed.

(** Without a root file the loop goes through every entry, and every
    accepted entry is in the tree it ends with. *)
Lemma loop_no_root_file root entries dt :
  (forall x, x ∈ entries -> root_file root x = false) ->
  well_placed dt ->
  let r := loop root entries dt in
  r.2 = false
  /\ well_placed r.1
  /\ (forall e, in_tree dt e -> in_tree r.1 e)
  /\ (forall entry remote,
        entry ∈ entries -> trimRoot root (path entry) = Some remote ->
        remote <> "" -> in_tree r.1 (entry_of isDir modTime mk remote entry)).
Proof.
  revert dt. induction entries as [| x rest IH]; intros dt Hnone Hwp; simpl.
  { split_and!; [done | done | done | by intros ? ? ?%elem_of_nil]. }
  assert (Hx : root_file root x = false) by (apply Hnone; by left).
  assert (Hrest : forall y, y ∈ rest -> root_file root y = false)
    by (intros y Hy; apply Hnone; by right).
  unfold is_root_file in Hx.
  destruct (trimRoot root (path x)) as [remote |] eqn:Htrim.
  - destruct (isDir x) eqn:Hdir.
    + destruct (IH (AddDir (EDir (NewDir remote (modTime x))) dt) Hrest)
        as (Hflag & Hwp' & Hkeep & Hall); [by apply well_placed_AddDir |].
      split_and!; [done | done | |].
      * intros e He. apply Hkeep, in_tree_AddDir. by right.
      * intros entry remote' [-> | Hin]%elem_of_cons Htrim' Hne; [| by apply Hall].
        rewrite Htrim in Htrim'. injection Htrim' as <-.
        unfold entry_of. rewrite Hdir. apply Hkeep, in_tree_AddDir. by left.
    + destruct (String.eqb_spec remote "") as [-> | Hne].
      { by rewrite bool_decide_eq_true_2 in Hx. }
      destruct (IH (Add (EObj (mk remote x)) dt) Hrest)
        as (Hflag & Hwp' & Hkeep & Hall); [by apply well_placed_Add |].
      split_and!; [done | done | |].
      * intros e He. apply Hkeep, in_tree_Add. by right.
      * intros entry remote' [-> | Hin]%elem_of_cons Htrim' Hne'; [| by apply Hall].
        rewrite Htrim in Htrim'. injection Htrim' as <-.
        unfold entry_of. rewrite Hdir. apply Hkeep, in_tree_Add. by left.
  - destruct (IH dt Hrest Hwp) as (Hflag & Hwp' & Hkeep & Hall).
    split_and!; [done | done | done |].
    intros entry remote' [-> | Hin]%elem_of_cons Htrim' Hne; [| by apply Hall].
    by rewrite Htrim in Htrim'.
Qed.

Lemma first_root_file root entries :
  (exists x, x ∈ entries /\ root_file root x = true) ->
  exists pre entry post,
    entries = (pre ++ entry :: post)%list
    /\ root_file root entry = true
    /\ forall x, x ∈ pre -> root_file root x = false.
Proof.
  induction entries as [| y rest IH]; intros (x & Hin & Hx).
  { by apply elem_of_nil in Hin. }
  destruct (root_file root y) eqn:Hy.
  - exists [], y, rest. split_and!; [done | done | by intros ? ?%elem_of_nil].
  - apply elem_of_cons in Hin as [-> | Hin]; [congruence |].
    destruct IH as (pre & entry & post & -> & Hentry & Hpre); [by exists x |].
    exists (y :: pre), entry, post. split_and!; [done | done |].
    by intros z [-> | Hz]%elem_of_cons; [| apply Hpre].
Qed.

Lemma loop_flag root entries dt :
  (loop root entries dt).2 = false ->
  forall x, x ∈ entries -> root_file root x = false.
Proof.
  intros Hflag x Hin. destruct (root_file root x) eqn:Hx; [| done].
  destruct (first_root_file root entries) as (pre & entry & post & -> & Hentry & Hpre);
    [by exists x |].
  by rewrite (loop_root_file root pre entry post dt Hpre Hentry) in Hflag.
Qed.

End loop_facts.

(** ** The tree the build ends with *)

Lemma parentDir_no_slash (p : string) : has_slash p = false -> parentDir p = "".
Proof.
  intros Hp. unfold parentDir, Dir.
  assert (Hd : dir_part p = "").
  { destruct p as [| c p]; [done |]. simpl in *.
    by destruct (is_slash c || has_slash p). }
  by rewrite Hd.
Qed.

Lemma last_elem_no_slash (s : string) : has_slash (last_elem s) = false.
Proof.
  induction s as [| c s IH]; [done |].
  change (last_elem (String c s))
    with (if has_slash (String c s) then last_elem s else String c s).
  by destruct (has_slash (String c s)) eqn:Hs.
Qed.

Lemma Base_slash (p : string) : Base p = "/" \/ has_slash (Base p) = false.
Proof.
  unfold Base. destruct (String.eqb p ""); [by right |].
  destruct (String.eqb (last_elem (TrimRightSlash p)) ""); [by left |].
  right. apply last_elem_no_slash.
Qed.

Lemma Clean_nonempty (p : string) : Clean p <> "".
Proof.
  unfold Clean. destruct (String.eqb p ""); [done |].
  destruct (is_rooted p); [done |].
  by destruct (String.eqb_spec (join (rev (fold_left (clean_step false) (split p) []))) "").
Qed.

(** A path under a prefix is empty only when the prefix is. *)
Lemma prefixed_empty (prefix trimmed : string) :
  prefixed prefix trimmed = "" -> prefix = "".
Proof.
  unfold prefixed, Join. simpl.
  destruct (String.eqb_spec prefix "") as [| Hne]; [done |].
  intros Heq. by apply Clean_nonempty in Heq.
Qed.

Section build_facts.
Context {E T : Type} `{Remoter T}.
Variables (path : E -> string) (isDir : E -> bool) (modTime : E -> Z)
  (mk : string -> E -> T).
Hypothesis mk_remote : forall remote entry, Remote (mk remote entry) = remote.

#[local] Abbreviation tree_of now root entries :=
  (Sort (CheckParents now "" (build_loop path isDir modTime mk root entries New).1)).

Lemma entry_of_Remote remote entry :
  entry_Remote (entry_of isDir modTime mk remote entry) = remote.
Proof. unfold entry_of. destruct (isDir entry); simpl; [done | apply mk_remote]. Qed.

(** Every step up from an inserted entry is a key of the built tree. *)
Lemma build_parents now root entries entry remote n :
  (build_loop path isDir modTime mk root entries New).2 = false ->
  entry ∈ entries -> trimRoot root (path entry) = Some remote -> remote <> "" ->
  1 <= n ->
  in_tree (tree_of now root entries) (entry_of isDir modTime mk remote entry)
  /\ is_key (tree_of now root entries) (Nat.iter n parentDir remote).
Proof.
  intros Hflag Hin Htrim Hne Hn.
  pose proof (loop_flag path isDir modTime mk root entries New Hflag) as Hnone.
  destruct (loop_no_root_file path isDir modTime mk root entries New Hnone well_placed_New)
    as (_ & Hwp & _ & Hall).
  specialize (Hall entry remote Hin Htrim Hne).
  destruct (CheckParents_spec now "" _ Hwp) as (Hwp' & _ & Hkeep & _ & Hclosed).
  assert (Hsorted : in_tree (tree_of now root entries)
                      (entry_of isDir modTime mk remote entry))
    by (by apply in_tree_Sort, Hkeep).
  split; [done |].
  rewrite <- (entry_of_Remote remote entry).
  apply parents_closed; [by apply well_placed_Sort | | done | done].
  intros k Hk. rewrite is_key_Sort in Hk.
  destruct (Hclosed k Hk) as [? | Hp]; [by left |].
  right. by apply is_key_Sort.
Qed.

(** The tree of the single-object case. *)
Lemma single_tree now (o : T) :
  let dt := Sort (CheckParents now "" (Add (EObj o) New)) in
  in_tree dt (EObj o)
  /\ (forall e, in_tree dt e -> is_dir_entry e = false -> e = EObj o)
  /\ (has_slash (Remote o) = false -> dt = {[ "" := [EObj o] ]}).
Proof.
  simpl.
  assert (Hwp : well_placed (Add (EObj o) (New : DirTree T)))
    by apply well_placed_Add, well_placed_New.
  destruct (CheckParents_spec now "" _ Hwp) as (_ & _ & Hkeep & Honly & _).
  split_and!.
  - apply in_tree_Sort, Hkeep, in_tree_Add. by left.
  - intros e He Hfile. rewrite in_tree_Sort in He.
    destruct (Honly e He) as [[-> | Hnew]%in_tree_Add | Hdir]; [done | | congruence].
    by apply in_tree_New in Hnew.
  - intros Hslash. unfold Add, append_child, children, New. simpl.
    rewrite (parentDir_no_slash _ Hslash), lookup_empty. simpl.
    rewrite insert_empty. unfold CheckParents.
    rewrite map_to_list_singleton. simpl.
    unfold Sort. by rewrite map_fmap_singleton.
Qed.

End build_facts.

Section single_facts.
Context {E T : Type} `{Remoter T}.
Variables (path : E -> string) (isDir : E -> bool) (modTime : E -> Z)
  (mk : string -> E -> T).
Hypothesis mk_remote : forall remote entry, Remote (mk remote entry) = remote.

(** With a root file among the entries, the build is the build of the
    first root file alone, and its tree holds that file and no other. *)
Lemma build_single now root entries :
  (exists x, x ∈ entries /\ is_root_file path isDir root x = true) ->
  exists entry,
    entry ∈ entries
    /\ is_root_file path isDir root entry = true
    /\ build_loop path isDir modTime mk root entries New
       = build_loop path isDir modTime mk root [entry] New
    /\ (build_loop path isDir modTime mk root entries New).2 = true
    /\ let dt := Sort (CheckParents now ""
                         (build_loop path isDir modTime mk root entries New).1) in
       in_tree dt (EObj (mk (Base root) entry))
       /\ (forall e, in_tree dt e -> is_dir_entry e = false ->
                     e = EObj (mk (Base root) entry))
       /\ (has_slash (Base root) = false -> dt = {[ "" := [EObj (mk (Base root) entry)] ]}).
Proof.
  intros Hex.
  destruct (first_root_file path isDir root entries Hex)
    as (pre & entry & post & -> & Hentry & Hpre).
  exists entry.
  pose proof (loop_root_file path isDir modTime mk root pre entry post New Hpre Hentry)
    as Hloop.
  assert (Halone : forall x, x ∈ @nil E -> is_root_file path isDir root x = false)
    by (by intros ? ?%elem_of_nil).
  pose proof (loop_root_file path isDir modTime mk root [] entry [] New Halone Hentry)
    as Hself.
  simpl app in Hself.
  split_and!.
  - apply elem_of_app. right. by left.
  - done.
  - by rewrite Hloop, Hself.
  - by rewrite Hloop.
  - rewrite Hloop. simpl.
    destruct (single_tree now (mk (Base root) entry)) as (Hin & Honly & Hexact).
    split_and!; [done | done |].
    intros Hslash. apply Hexact. by rewrite mk_remote.
Qed.

(** A root file under an empty [root] needs an empty [prefix]. *)
Lemma root_file_empty_root prefix (trimmed : E -> string) entry :
  is_root_file (fun e => prefixed prefix (trimmed e)) isDir "" entry = true ->
  prefix = "".
Proof.
  unfold is_root_file. intros [_ Hroot%bool_decide_eq_true]%andb_true_iff.
  unfold trimRoot in Hroot. simpl in Hroot. injection Hroot as Hroot.
  by apply prefixed_empty in Hroot.
Qed.

End single_facts.

(** C4. When some file entry has the empty path after [prefix] and
    [root], the build is that of the first such entry alone, whatever
    comes before or after it: [singleObject] is true, and the tree holds
    one file entry, named by the base name of [root] (which is that of
    [prefix] when [root] is empty), and no other file. *)
Theorem single_object_build now prefix root :
  (forall zrFile,
     (exists file, file ∈ zrFile
        /\ is_root_file (zip.entryPath prefix) zip_isDir root file = true) ->
     exists file,
       file ∈ zrFile
       /\ is_root_file (zip.entryPath prefix) zip_isDir root file = true
       /\ zip.buildZip now prefix root zrFile = zip.buildZip now prefix root [file]
       /\ (zip.buildZip now prefix root zrFile).2 = true
       /\ in_tree (zip.buildZip now prefix root zrFile).1
            (EObj (zip.mkObject (Base root) file))
       /\ (forall e, in_tree (zip.buildZip now prefix root zrFile).1 e ->
                     is_dir_entry e = false -> e = EObj (zip.mkObject (Base root) file))
       /\ (has_slash (Base root) = false ->
           (zip.buildZip now prefix root zrFile).1
           = {[ "" := [EObj (zip.mkObject (Base root) file)] ]})
       /\ zip.o_remote (zip.mkObject (Base root) file) = Base root
       /\ (root = "" -> Base root = Base prefix))
  /\ (forall walk,
        (exists d, d ∈ walk
           /\ is_root_file (squashfs.entryPath prefix) squashfs.we_IsDir root d = true) ->
        exists d,
          d ∈ walk
          /\ is_root_file (squashfs.entryPath prefix) squashfs.we_IsDir root d = true
          /\ squashfs.buildSquashfs now prefix root walk
             = squashfs.buildSquashfs now prefix root [d]
          /\ (squashfs.buildSquashfs now prefix root walk).2 = true
          /\ in_tree (squashfs.buildSquashfs now prefix root walk).1
               (EObj (squashfs.mkObject (Base root) d))
          /\ (forall e, in_tree (squashfs.buildSquashfs now prefix root walk).1 e ->
                        is_dir_entry e = false ->
                        e = EObj (squashfs.mkObject (Base root) d))
          /\ (has_slash (Base root) = false ->
              (squashfs.buildSquashfs now prefix root walk).1
              = {[ "" := [EObj (squashfs.mkObject (Base root) d)] ]})
          /\ squashfs.o_remote (squashfs.mkObject (Base root) d) = Base root
          /\ (root = "" -> Base root = Base prefix)).
Proof.
  split.
  - intros zrFile Hex.
    destruct (build_single (zip.entryPath prefix) zip_isDir zip_modTime zip.mkObject
                ltac:(done) now root zrFile Hex)
      as (file & Hin & Hroot & Hsame & Hflag & Htree & Honly & Hexact).
    exists file. unfold zip.buildZip. rewrite !zip_loop_shared.
    split_and!; try done.
    + by rewrite Hsame.
    + intros ->. by rewrite (root_file_empty_root zip_isDir prefix _ file Hroot).
  - intros walk Hex.
    destruct (build_single (squashfs.entryPath prefix) squashfs.we_IsDir
                squashfs.we_ModTime squashfs.mkObject ltac:(done) now root walk Hex)
      as (d & Hin & Hroot & Hsame & Hflag & Htree & Honly & Hexact).
    exists d. unfold squashfs.buildSquashfs. rewrite !squashfs_loop_shared.
    split_and!; try done.
    + by rewrite Hsame.
    + intros ->. by rewrite (root_file_empty_root squashfs.we_IsDir prefix _ d Hroot).
Qed.

(** ** Parents and path prefixes *)

Lemma split_nonempty (s : string) : split s <> [].
Proof.
  destruct s as [| c s]; [done |]. simpl.
  destruct (is_slash c); [done |]. by destruct (split s).
Qed.

Lemma is_slash_eq (c : ascii) : is_slash c = true -> c = "/"%char.
Proof. unfold is_slash. by intros ->%Ascii.eqb_eq. Qed.

Lemma split_app_slash (d rest : string) :
  split (d ++ String "/" rest) = (split d ++ split rest)%list.
Proof.
  induction d as [| c d IH]; [done |].
  rewrite app_cons. simpl. rewrite IH.
  destruct (is_slash c); [done |].
  pose proof (split_nonempty d). by destruct (split d).
Qed.

Lemma join_split (s : string) : join (split s) = s.
Proof.
  induction s as [| c s IH]; [done |]. simpl.
  pose proof (split_nonempty s) as Hne.
  destruct (is_slash c) eqn:Hc.
  - apply is_slash_eq in Hc as ->. destruct (split s) as [| h t]; [done |].
    change (join ("" :: h :: t)) with ("" ++ String "/" (join (h :: t))).
    by rewrite IH.
  - destruct (split s) as [| h [| y t]]; [done | |].
    + simpl in *. by rewrite IH.
    + change (join (String c h :: y :: t)) with (String c h ++ String "/" (join (y :: t))).
      change (join (h :: y :: t)) with (h ++ String "/" (join (y :: t))) in IH.
      by rewrite app_cons, IH.
Qed.

Lemma has_slash_app (a b : string) : has_slash (a ++ String "/" b) = true.
Proof.
  induction a as [| c a IH]; [done |].
  rewrite app_cons. simpl. rewrite IH. by destruct (is_slash c).
Qed.

Lemma dir_part_no_slash (x : string) : has_slash x = false -> dir_part x = "".
Proof.
  destruct x as [| c x]; [done |]. simpl. by destruct (is_slash c || has_slash x).
Qed.

Lemma dir_part_app (d x : string) :
  has_slash x = false -> dir_part (d ++ String "/" x) = d ++ "/".
Proof.
  intros Hx. induction d as [| c d IH].
  - simpl. by rewrite (dir_part_no_slash x Hx).
  - rewrite !app_cons. simpl. rewrite has_slash_app, IH. by destruct (is_slash c).
Qed.

Lemma clean_fold_plain rooted (l out : list string) :
  forallb plain l = true ->
  fold_left (clean_step rooted) l out = (rev l ++ out)%list.
Proof.
  revert out. induction l as [| x l IH]; intros out Hl; [done |].
  simpl in Hl. apply andb_true_iff in Hl as [Hx Hl].
  simpl. rewrite IH by done. rewrite <- app_assoc. simpl.
  unfold plain in Hx. unfold clean_step.
  destruct (String.eqb x ""), (String.eqb x "."), (String.eqb x ".."); done.
Qed.

Lemma plain_path_not_rooted (p : string) : plain_path p = true -> is_rooted p = false.
Proof.
  destruct p as [| c p]; [done |]. unfold plain_path. simpl.
  destruct (is_slash c); [done | done].
Qed.

Lemma plain_path_nonempty (p : string) : plain_path p = true -> p <> "" /\ p <> ".".
Proof. split; by intros ->. Qed.

(** A plain path followed by a slash cleans to the path itself. *)
Lemma Clean_plain_slash (d : string) : plain_path d = true -> Clean (d ++ "/") = d.
Proof.
  intros Hd. destruct (plain_path_nonempty d Hd) as [Hne _].
  unfold Clean.
  destruct (String.eqb_spec (d ++ "/") "") as [Heq | _].
  { destruct d; [done | by rewrite app_cons in Heq]. }
  assert (Hrooted : is_rooted (d ++ "/") = false).
  { pose proof (plain_path_not_rooted d Hd). destruct d; [done |]. by rewrite app_cons. }
  rewrite Hrooted, split_app_slash, fold_left_app.
  rewrite (clean_fold_plain false (split d) [] Hd).
  change (fold_left (clean_step false) (split "") (rev (split d) ++ [])%list)
    with (rev (split d) ++ [])%list.
  rewrite app_nil_r, rev_involutive, join_split.
  by destruct (String.eqb_spec d "").
Qed.

Lemma parentDir_plain (d x : string) :
  plain_path d = true -> has_slash x = false -> parentDir (d ++ String "/" x) = d.
Proof.
  intros Hd Hx. unfold parentDir, Dir.
  rewrite dir_part_app, Clean_plain_slash by done.
  destruct (plain_path_nonempty d Hd) as [_ Hdot].
  by destruct (String.eqb_spec d ".").
Qed.

Lemma plain_path_app (d rest : string) :
  plain_path (d ++ String "/" rest) = true ->
  plain_path d = true /\ plain_path rest = true.
Proof.
  unfold plain_path. rewrite split_app_slash, forallb_app.
  by intros [? ?]%andb_true_iff.
Qed.

Lemma last_slash (s : string) :
  has_slash s = true ->
  exists s' x, s = s' ++ String "/" x /\ has_slash x = false.
Proof.
  induction s as [| c s IH]; [done |]. simpl.
  destruct (has_slash s) eqn:Hs.
  - intros _. destruct (IH eq_refl) as (s' & x & -> & Hx).
    exists (String c s'), x. by rewrite app_cons.
  - rewrite orb_false_r. intros ->%is_slash_eq. by exists "", s.
Qed.

Lemma first_slash (s : string) :
  has_slash s = true ->
  exists d rest, s = d ++ String "/" rest /\ has_slash d = false.
Proof.
  induction s as [| c s IH]; [done |]. simpl.
  destruct (is_slash c) eqn:Hc.
  - intros _. apply is_slash_eq in Hc as ->. by exists "", s.
  - simpl. intros Hs. destruct (IH Hs) as (d & rest & -> & Hd).
    exists (String c d), rest. rewrite app_cons. split; [done |]. simpl. by rewrite Hc.
Qed.

(** On a plain path, stepping to the parent reaches what stands before
    each slash, and then the root. *)
Lemma parents_reach_prefix (rest d : string) :
  plain_path (d ++ String "/" rest) = true ->
  exists n, 1 <= n /\ Nat.iter n parentDir (d ++ String "/" rest) = d.
Proof.
  remember (String.length rest) as len eqn:Hlen.
  revert rest Hlen d. induction len as [len IH] using lt_wf_ind.
  intros rest Hlen d Hplain.
  destruct (has_slash rest) eqn:Hrest.
  - destruct (last_slash rest Hrest) as (r' & x & -> & Hx).
    assert (Hp : d ++ String "/" (r' ++ String "/" x) = (d ++ String "/" r') ++ String "/" x)
      by (by rewrite app_assoc_s, app_cons).
    rewrite Hp in *.
    destruct (plain_path_app _ _ Hplain) as [Hplain' _].
    destruct (IH (String.length r')) with (rest := r') (d := d)
      as (n & Hn & Hiter); [| done | done |].
    { rewrite Hlen, length_app_s. simpl. lia. }
    exists (S n). split; [lia |].
    by rewrite Nat.iter_succ_r, parentDir_plain.
  - exists 1. split; [done |]. simpl.
    destruct (plain_path_app _ _ Hplain) as [Hd _]. by apply parentDir_plain.
Qed.

Lemma parents_reach (d p : string) :
  plain_path p = true -> path_prefix d p ->
  exists n, 1 <= n /\ Nat.iter n parentDir p = d.
Proof.
  intros Hplain [-> | (rest & ->)]; [| by apply parents_reach_prefix].
  destruct (has_slash p) eqn:Hp.
  - destruct (first_slash p Hp) as (d & rest & -> & Hd).
    destruct (parents_reach_prefix rest d Hplain) as (n & Hn & Hiter).
    exists (S n). split; [lia |]. simpl. rewrite Hiter. by apply parentDir_no_slash.
  - exists 1. split; [done |]. simpl. by apply parentDir_no_slash.
Qed.

(** ** Ancestors *)

(** C3. When the build does not end in the single-object case, every
    entry it accepts at a non-empty path is in the tree, every step from
    that path to a parent lands on a key of the tree, and so, for a plain
    path, does every prefix that stands before one of its slashes, and
    the root; in both backends, whether or not the archive had a record
    for the directory. *)
Theorem ancestors_are_keys now prefix root :
  (forall zrFile file p,
     (zip.buildZip now prefix root zrFile).2 = false ->
     file ∈ zrFile ->
     trimRoot root (zip.entryPath prefix file) = Some p -> p <> "" ->
     in_tree (zip.buildZip now prefix root zrFile).1
       (entry_of zip_isDir zip_modTime zip.mkObject p file)
     /\ (forall n, 1 <= n ->
           is_key (zip.buildZip now prefix root zrFile).1 (Nat.iter n parentDir p))
     /\ (plain_path p = true ->
         forall d, path_prefix d p -> is_key (zip.buildZip now prefix root zrFile).1 d))
  /\ (forall walk entry p,
        (squashfs.buildSquashfs now prefix root walk).2 = false ->
        entry ∈ walk ->
        trimRoot root (squashfs.entryPath prefix entry) = Some p -> p <> "" ->
        in_tree (squashfs.buildSquashfs now prefix root walk).1
          (entry_of squashfs.we_IsDir squashfs.we_ModTime squashfs.mkObject p entry)
        /\ (forall n, 1 <= n ->
              is_key (squashfs.buildSquashfs now prefix root walk).1
                (Nat.iter n parentDir p))
        /\ (plain_path p = true ->
            forall d, path_prefix d p ->
              is_key (squashfs.buildSquashfs now prefix root walk).1 d)).
Proof.
  split.
  - intros zrFile file p Hflag Hin Htrim Hne.
    unfold zip.buildZip in *. rewrite zip_loop_shared in *. simpl in *.
    assert (Hsteps : forall n, 1 <= n ->
              is_key (Sort (CheckParents now ""
                (build_loop (zip.entryPath prefix) zip_isDir zip_modTime zip.mkObject
                   root zrFile New).1)) (Nat.iter n parentDir p)).
    { intros n Hn.
      by apply (build_parents (zip.entryPath prefix) zip_isDir zip_modTime zip.mkObject
                  ltac:(done) now root zrFile file p n Hflag Hin Htrim Hne Hn). }
    split_and!; [| done |].
    + by apply (build_parents (zip.entryPath prefix) zip_isDir zip_modTime zip.mkObject
                  ltac:(done) now root zrFile file p 1 Hflag Hin Htrim Hne).
    + intros Hplain d Hd.
      destruct (parents_reach d p Hplain Hd) as (n & Hn & <-). by apply Hsteps.
  - intros walk entry p Hflag Hin Htrim Hne.
    unfold squashfs.buildSquashfs in *. rewrite squashfs_loop_shared in *. simpl in *.
    assert (Hsteps : forall n, 1 <= n ->
              is_key (Sort (CheckParents now ""
                (build_loop (squashfs.entryPath prefix) squashfs.we_IsDir
                   squashfs.we_ModTime squashfs.mkObject root walk New).1))
                (Nat.iter n parentDir p)).
    { intros n Hn.
      by apply (build_parents (squashfs.entryPath prefix) squashfs.we_IsDir
                  squashfs.we_ModTime squashfs.mkObject
                  ltac:(done) now root walk entry p n Hflag Hin Htrim Hne Hn). }
    split_and!; [| done |].
    + by apply (build_parents (squashfs.entryPath prefix) squashfs.we_IsDir
                  squashfs.we_ModTime squashfs.mkObject
                  ltac:(done) now root walk entry p 1 Hflag Hin Htrim Hne).
    + intros Hplain d Hd.
      destruct (parents_reach d p Hplain Hd) as (n & Hn & <-). by apply Hsteps.
Qed.

Lemma ancestors_are_keys_witness :
  let files := [sample_file "a/b.txt" [x00]; sample_file "x/y/z/w.txt" [x01]] in
  is_key (zip.buildZip 0 "" "" files).1 "x/y/z"
  /\ is_key (zip.buildZip 0 "" "" files).1 "x/y"
  /\ is_key (zip.buildZip 0 "" "" files).1 "x"
  /\ is_key (zip.buildZip 0 "" "" files).1 "".
Proof.
  intros files.
  destruct (ancestors_are_keys 0 "" "") as [Hzip _].
  destruct (Hzip files (sample_file "x/y/z/w.txt" [x01]) "x/y/z/w.txt")
    as (_ & _ & Hprefix).
  - reflexivity.
  - apply elem_of_cons. right. apply elem_of_cons. by left.
  - reflexivity.
  - discriminate.
  - split_and!; apply Hprefix; try reflexivity.
    + right. by exists "w.txt".
    + right. by exists "z/w.txt".
    + right. by exists "y/z/w.txt".
    + by left.
Defined.

Lemma single_object_build_witness :
  let files := [sample_file "a/c/d.txt" [x01]; sample_file "a/b.txt" [x00];
                sample_file "a/e.txt" [x02]] in
  exists file,
    file ∈ files
    /\ zip.buildZip 0 "" "a/b.txt" files
       = ({[ "" := [EObj (zip.mkObject "b.txt" file)] ]}, true).
Proof.
  intros files.
  destruct (single_object_build 0 "" "a/b.txt") as [Hzip _].
  destruct (Hzip files) as (file & Hin & _ & _ & Hflag & _ & _ & Hexact & _).
  - exists (sample_file "a/b.txt" [x00]). split; [| reflexivity].
    apply elem_of_cons. right. apply elem_of_cons. by left.
  - exists file. split; [exact Hin |].
    specialize (Hexact eq_refl).
    destruct (zip.buildZip 0 "" "a/b.txt" files) as [dt flag]. simpl in *.
    by rewrite Hexact, Hflag.
Defined.

(** ** The query surface on sample trees *)

Lemma in_tree_singleton {T} (k : string) (l : list (DirEntry T)) (e : DirEntry T) :
  in_tree ({[ k := l ]} : DirTree T) e <-> e ∈ l.
Proof.
  split.
  - intros (k' & es & Hes & Hin). by apply lookup_singleton_Some in Hes as [_ <-].
  - intros Hin. exists k, l. by rewrite lookup_singleton_eq.
Qed.

Lemma List_and_NewObject_witness :
  let o := sample_object "b.txt" [x00] in
  let f := zip.set_dt (fresh_zip_fs "test.zip") {[ "" := [EObj o] ]} in
  zip.List f "" = Ok [EObj o]
  /\ zip.List f "b" = Err ErrorDirNotFound
  /\ zip.NewObject f "c.txt" = Err ErrorObjectNotFound
  /\ exists o', zip.NewObject f "b.txt" = Ok o' /\ zip.o_remote o' = "b.txt".
Proof.
  intros o f.
  destruct (List_and_NewObject f {[ "" := [EObj o] ]} eq_refl)
    as (Hlist & Habsent & Hfile & _).
  split_and!.
  - by rewrite Hlist.
  - by rewrite Hlist.
  - apply Habsent. intros e He%in_tree_singleton.
    by apply list_elem_of_singleton in He as ->.
  - destruct (Hfile) with (path := "b.txt") (o := o) as (o' & Ho' & _ & Hremote).
    + intros k es e Hes He. apply lookup_singleton_Some in Hes as [<- <-].
      by apply list_elem_of_singleton in He as ->.
    + by apply in_tree_singleton, list_elem_of_singleton.
    + reflexivity.
    + intros d Hd%in_tree_singleton. by apply list_elem_of_singleton in Hd.
    + by exists o'.
Defined.

Example queries_on_scenario :
  let r := zip.buildZip 0 "" "a/c" [sample_file "a/b.txt" [x00]; sample_file "a/c/d.txt" [x01]] in
  let f := zip.set_dt (fresh_zip_fs "test.zip") r.1 in
  (zip.o_remote <$> (match zip.NewObject f "d.txt" with Ok o => Some o | _ => None end))
    = Some "d.txt"
  /\ zip.NewObject f "b.txt" = Err ErrorObjectNotFound
  /\ zip.List f "a" = Err ErrorDirNotFound.
Proof. vm_compute. repeat split; reflexivity. Qed.

Example NewObject_on_directory :
  let r := zip.buildZip 0 "" "" [sample_file "a/b.txt" [x00]; sample_file "a/c/d.txt" [x01]] in
  let f := zip.set_dt (fresh_zip_fs "test.zip") r.1 in
  zip.NewObject f "a/c" = Err ErrorNotAFile
  /\ zip.NewObject f "a" = Err ErrorNotAFile.
Proof. vm_compute. split; reflexivity. Qed.

(** * Further properties *)

(** ** [strip] and [path] *)

Lemma Clean_plain (p : string) : plain_path p = true -> Clean p = p.
Proof.
  intros Hp. destruct (plain_path_nonempty p Hp) as [Hne _].
  unfold Clean. destruct (String.eqb_spec p "") as [| _]; [done |].
  rewrite (plain_path_not_rooted p Hp).
  rewrite (clean_fold_plain false (split p) [] Hp).
  rewrite app_nil_r, rev_involutive, join_split.
  by destruct (String.eqb_spec p "").
Qed.

Lemma plain_path_join (a b : string) :
  plain_path a = true -> plain_path b = true ->
  plain_path (a ++ String "/" b) = true.
Proof.
  unfold plain_path. intros Ha Hb.
  by rewrite split_app_slash, forallb_app, Ha, Hb.
Qed.

Lemma stripPrefix_spec (prefix remote : string) :
  stripPrefix prefix (prefix ++ "/") prefix = Ok ""
  /\ (forall rest, stripPrefix prefix (prefix ++ "/") (prefix ++ String "/" rest) = Ok rest)
  /\ (forall rest, stripPrefix prefix (prefix ++ "/") remote = Ok rest ->
        (remote = prefix /\ rest = "") \/ remote = prefix ++ String "/" rest)
  /\ (remote <> prefix -> HasPrefix remote (prefix ++ "/") = false ->
      stripPrefix prefix (prefix ++ "/") remote = Err (ErrMsg "path is not in archive")).
Proof.
  unfold stripPrefix. split_and!.
  - by rewrite String.eqb_refl.
  - intros rest.
    destruct (String.eqb_spec (prefix ++ String "/" rest) prefix) as [Heq | _].
    { by apply app_slash_neq in Heq. }
    replace (prefix ++ String "/" rest) with ((prefix ++ "/") ++ rest)
      by (by rewrite app_assoc_s).
    by rewrite HasPrefix_app, drop_chars_app.
  - intros rest. destruct (String.eqb_spec remote prefix) as [-> | Hne].
    { intros [= <-]. by left. }
    destruct (HasPrefix remote (prefix ++ "/")) eqn:Hp; [| done].
    simpl. intros [= <-]. right.
    apply HasPrefix_inv in Hp. rewrite Hp at 1. by rewrite app_assoc_s.
  - intros Hne Hp. destruct (String.eqb_spec remote prefix); [done |].
    by rewrite Hp.
Qed.

(** X1. When [prefixSlash] is [prefix + "/"], as [New] sets it, [strip]
    answers the empty path for the prefix itself and [rest] for
    [prefix/rest], answers nothing else, and fails on every other path;
    in both backends. *)
Theorem strip_spec (f : zip.Fs) (g : squashfs.Fs) (remote : string) :
  zip.f_prefixSlash f = zip.f_prefix f ++ "/" ->
  squashfs.f_prefixSlash g = squashfs.f_prefix g ++ "/" ->
  (zip.strip f (zip.f_prefix f) = Ok ""
   /\ (forall rest, zip.strip f (zip.f_prefix f ++ String "/" rest) = Ok rest)
   /\ (forall rest, zip.strip f remote = Ok rest ->
         (remote = zip.f_prefix f /\ rest = "")
         \/ remote = zip.f_prefix f ++ String "/" rest)
   /\ (remote <> zip.f_prefix f -> HasPrefix remote (zip.f_prefix f ++ "/") = false ->
       zip.strip f remote = Err (ErrMsg "path is not in archive")))
  /\ (squashfs.strip g (squashfs.f_prefix g) = Ok ""
      /\ (forall rest,
            squashfs.strip g (squashfs.f_prefix g ++ String "/" rest) = Ok rest)
      /\ (forall rest, squashfs.strip g remote = Ok rest ->
            (remote = squashfs.f_prefix g /\ rest = "")
            \/ remote = squashfs.f_prefix g ++ String "/" rest)
      /\ (remote <> squashfs.f_prefix g ->
          HasPrefix remote (squashfs.f_prefix g ++ "/") = false ->
          squashfs.strip g remote = Err (ErrMsg "path is not in archive"))).
Proof.
  intros Hf Hg. unfold zip.strip, squashfs.strip. rewrite Hf, Hg.
  split; apply stripPrefix_spec.
Qed.

Lemma strip_spec_witness :
  zip.strip (zip_fs "dir/a.zip" "" None) "dir/a.zip/x/y.txt" = Ok "x/y.txt"
  /\ zip.strip (zip_fs "dir/a.zip" "" None) "dir/b.zip/x" = Err (ErrMsg "path is not in archive")
  /\ squashfs.strip sample_sq_fs "" = Ok "".
Proof.
  destruct (strip_spec (zip_fs "dir/a.zip" "" None) sample_sq_fs "dir/b.zip/x"
              eq_refl eq_refl) as ((_ & Hin & _ & Hout) & (Hself & _)).
  split_and!.
  - apply (Hin "x/y.txt").
  - by apply Hout.
  - exact Hself.
Defined.

(** X2. For a plain prefix and a plain path of the archive, [strip]
    undoes [Object.path]. *)
Theorem strip_path (f : zip.Fs) (remote : string) :
  zip.f_prefixSlash f = zip.f_prefix f ++ "/" ->
  plain_path (zip.f_prefix f) = true -> plain_path remote = true ->
  zip.path f remote = zip.f_prefix f ++ String "/" remote
  /\ zip.strip f (zip.path f remote) = Ok remote.
Proof.
  intros Hslash Hprefix Hremote.
  destruct (plain_path_nonempty _ Hprefix) as [Hne _].
  assert (Hpath : zip.path f remote = zip.f_prefix f ++ String "/" remote).
  { unfold zip.path, Join. simpl.
    destruct (String.eqb_spec (zip.f_prefix f) "") as [| _]; [done |].
    change (join [zip.f_prefix f; remote]) with (zip.f_prefix f ++ String "/" remote).
    by apply Clean_plain, plain_path_join. }
  split; [done |]. rewrite Hpath. unfold zip.strip. rewrite Hslash.
  destruct (stripPrefix_spec (zip.f_prefix f) "") as (_ & Hin & _). apply Hin.
Qed.

Lemma strip_path_witness :
  zip.strip (zip_fs "dir/a.zip" "" None) (zip.path (zip_fs "dir/a.zip" "" None) "x/y.txt")
  = Ok "x/y.txt".
Proof. by apply (strip_path (zip_fs "dir/a.zip" "" None) "x/y.txt"). Defined.

(** ** More on [Open] *)

Lemma decodeOptions_nil size : decodeOptions size [] = (0, -1)%Z.
Proof. reflexivity. Qed.

Lemma discard_Ok (rc rc' : Reader) (offset : Z) :
  (if (0 <? offset)%Z then GoIO.CopyN_Discard rc offset else Ok rc) = Ok rc' ->
  rc' = drop (Z.to_nat offset) rc.
Proof.
  unfold GoIO.CopyN_Discard.
  destruct (Z.ltb_spec 0 offset) as [Hpos | Hle].
  - destruct (Z.of_nat (length rc) <? offset)%Z; [done | by intros [= <-]].
  - intros [= <-]. by replace (Z.to_nat offset) with 0 by lia.
Qed.

(** X3. With no option [Open] yields the whole content. With a seek to
    [k] it yields the content from byte [k] on when [k] is within the
    content, the whole content when [k] is zero or negative, and fails
    with [io.EOF] when [k] is beyond the end; in both backends. *)
Theorem Open_seek (o : zip.Object) (file : zip.File) (g : squashfs.Fs)
  (so : squashfs.Object) (content : list byte) (k : Z) :
  zip.o_file o = Some file -> zip.file_Open file = Ok content ->
  squashfs.f_rd g (squashfs.o_filePath so) = Ok content ->
  zip.Open o [] = Ok content
  /\ squashfs.Open g so [] = Ok content
  /\ zip.Open o [SeekOption k]
     = (if (k <=? 0)%Z then Ok content
        else if (k <=? Z.of_nat (length content))%Z then Ok (drop (Z.to_nat k) content)
        else Err EOF)
  /\ squashfs.Open g so [SeekOption k] = zip.Open o [SeekOption k].
Proof.
  intros Hfile Hopen Hrd.
  unfold zip.Open, squashfs.Open, zip.openAt, squashfs.openAt.
  rewrite Hfile, Hopen, Hrd. simpl.
  split_and!; [done | done | | done].
  unfold GoIO.CopyN_Discard.
  destruct (Z.ltb_spec 0 k), (Z.leb_spec k 0); try lia; [| done].
  by destruct (Z.ltb_spec (Z.of_nat (length content)) k),
       (Z.leb_spec k (Z.of_nat (length content))); try lia.
Qed.

Lemma Open_seek_witness :
  zip.Open (sample_object "data.bin" bytes20) [SeekOption 18] = Ok [x12; x13]
  /\ squashfs.Open sample_sq_fs (sample_sq_object "data.bin" 20) [SeekOption 18]
     = Ok [x12; x13].
Proof.
  destruct (Open_seek (sample_object "data.bin" bytes20)
              (sample_file "data.bin" bytes20) sample_sq_fs
              (sample_sq_object "data.bin" 20) bytes20 18 eq_refl eq_refl eq_refl)
    as (_ & _ & Hzip & Hsq).
  split; [exact Hzip | by rewrite Hsq, Hzip].
Defined.

Lemma window_segment (content : list byte) (offset limit : Z) (rc rc' : Reader) :
  (if (0 <? offset)%Z then GoIO.CopyN_Discard content offset else Ok content) = Ok rc' ->
  (if (0 <=? limit)%Z then readers.NewLimitedReadCloser rc' (limit - offset) else rc')
  = rc ->
  segment_of rc content.
Proof.
  intros ->%discard_Ok <-.
  unfold segment_of, readers.NewLimitedReadCloser.
  destruct (0 <=? limit)%Z; [destruct (limit - offset <? 0)%Z |].
  - exists (take (Z.to_nat offset) content), []. by rewrite app_nil_r, take_drop.
  - exists (take (Z.to_nat offset) content),
           (drop (Z.to_nat (limit - offset)) (drop (Z.to_nat offset) content)).
    by rewrite take_drop, take_drop.
  - exists (take (Z.to_nat offset) content), []. by rewrite app_nil_r, take_drop.
Qed.

(** X4. Whatever the options, what [Open] yields is a run of consecutive
    bytes of the entry's content: nothing is invented, repeated or
    reordered; in both backends. *)
Theorem Open_yields_segment (o : zip.Object) (file : zip.File) (g : squashfs.Fs)
  (so : squashfs.Object) (content : list byte) (options : list OpenOption) (rc : Reader) :
  zip.o_file o = Some file -> zip.file_Open file = Ok content ->
  squashfs.f_rd g (squashfs.o_filePath so) = Ok content ->
  (zip.Open o options = Ok rc -> segment_of rc content)
  /\ (squashfs.Open g so options = Ok rc -> segment_of rc content).
Proof.
  intros Hfile Hopen Hrd.
  unfold zip.Open, squashfs.Open, zip.openAt, squashfs.openAt.
  rewrite Hfile, Hopen, Hrd.
  split.
  - match goal with
    | |- match ?d with _ => _ end = _ -> _ => destruct d as [rc' | |] eqn:Hdiscard
    end; [| by intros [=] | by intros [=]].
    intros Heq.
    apply (window_segment content _ (decodeOptions (zip.Size o) options).2 rc rc' Hdiscard).
    match type of Heq with (if ?c then _ else _) = _ => destruct c end; by injection Heq.
  - match goal with
    | |- match ?d with _ => _ end = _ -> _ => destruct d as [rc' | |] eqn:Hdiscard
    end; [| by intros [=] | by intros [=]].
    intros Heq.
    apply (window_segment content _ (decodeOptions (squashfs.Size so) options).2 rc rc'
             Hdiscard).
    match type of Heq with (if ?c then _ else _) = _ => destruct c end; by injection Heq.
Qed.

Lemma Open_yields_segment_witness :
  segment_of [x05; x06; x07] bytes20.
Proof.
  destruct (Open_yields_segment (sample_object "data.bin" bytes20)
              (sample_file "data.bin" bytes20) sample_sq_fs
              (sample_sq_object "data.bin" 20) bytes20 [RangeOption 5 12]
              [x05; x06; x07] eq_refl eq_refl eq_refl) as [Hzip _].
  by apply Hzip.
Defined.

Lemma decodeOptions_known size (options : list OpenOption) (acc : Z * Z) :
  fold_left
    (fun (acc : Z * Z) option =>
       match option with
       | SeekOption x => (x, acc.2)
       | RangeOption s e => Decode s e size
       | OtherOption _ => acc
       end) (List.filter known_option options) acc
  = fold_left
      (fun (acc : Z * Z) option =>
         match option with
         | SeekOption x => (x, acc.2)
         | RangeOption s e => Decode s e size
         | OtherOption _ => acc
         end) options acc.
Proof.
  revert acc. induction options as [| option options IH]; intros acc; [done |].
  destruct option; simpl; apply IH.
Qed.

(** X5. Options other than seek and range, mandatory or not, change
    nothing: [Open] answers as if they had not been passed; in both
    backends. *)
Theorem Open_ignores_other_options (o : zip.Object) (g : squashfs.Fs)
  (so : squashfs.Object) (options : list OpenOption) :
  zip.Open o options = zip.Open o (List.filter known_option options)
  /\ squashfs.Open g so options = squashfs.Open g so (List.filter known_option options).
Proof.
  unfold zip.Open, squashfs.Open, decodeOptions.
  by rewrite !decodeOptions_known.
Qed.

(** ** The checksum *)

Lemma hex_value_digit (d : Z) : (0 <= d < 16)%Z -> hex_value (zip.hex_digit d) = Some d.
Proof.
  intros Hd.
  assert (Hcases : (d = 0 \/ d = 1 \/ d = 2 \/ d = 3 \/ d = 4 \/ d = 5 \/ d = 6 \/ d = 7
                   \/ d = 8 \/ d = 9 \/ d = 10 \/ d = 11 \/ d = 12 \/ d = 13 \/ d = 14
                   \/ d = 15)%Z) by lia.
  repeat (destruct Hcases as [-> | Hcases]; [reflexivity |]). by subst.
Qed.

Lemma hex_digits_length (n : nat) (z : Z) (acc : string) :
  String.length (zip.hex_digits n z acc) = n + String.length acc.
Proof.
  revert z acc. induction n as [| n IH]; intros z acc; [done |].
  simpl. rewrite IH. simpl. lia.
Qed.

Lemma parse_hex_digits (n : nat) (z a : Z) (acc : string) :
  (0 <= z)%Z ->
  parse_hex_from a (zip.hex_digits n z acc)
  = parse_hex_from (a * 16 ^ Z.of_nat n + z mod 16 ^ Z.of_nat n) acc.
Proof.
  revert z acc. induction n as [| n IH]; intros z acc Hz.
  - simpl. f_equal. rewrite Z.mod_1_r. lia.
  - simpl zip.hex_digits. rewrite IH by (apply Z.div_pos; lia).
    simpl parse_hex_from.
    rewrite hex_value_digit by (apply Z.mod_pos_bound; lia).
    f_equal. rewrite Nat2Z.inj_succ, Z.pow_succ_r by lia.
    rewrite Z.rem_mul_r by lia. ring.
Qed.

(** X6. On an adapter that read an archive, the CRC32 hash of an object
    is the 8-digit lower-case hexadecimal numeral of the checksum in its
    header: it has 8 characters and reads back as the checksum, taken
    modulo 2^32. *)
Theorem Hash_CRC32_is_hex (f : zip.Fs) (o : zip.Object) (dt : DirTree zip.Object) :
  zip.f_dt f = Some dt ->
  exists s, zip.Hash f o CRC32 = Ok s
            /\ String.length s = 8
            /\ parse_hex s = Some (zip.fh_CRC32 (zip.o_fh o) mod 2 ^ 32)%Z.
Proof.
  intros Hdt. unfold zip.Hash. rewrite Hdt. eexists. split; [reflexivity |].
  unfold zip.hex08. split; [by rewrite hex_digits_length |].
  unfold parse_hex. rewrite parse_hex_digits by (apply Z.mod_pos_bound; lia).
  simpl parse_hex_from. f_equal.
  rewrite Z.mul_0_l, Z.add_0_l.
  apply Z.mod_small. change (16 ^ Z.of_nat 8)%Z with (2 ^ 32)%Z.
  apply Z.mod_pos_bound. lia.
Qed.

Lemma Hash_CRC32_is_hex_witness :
  exists s, zip.Hash (zip_fs "" "" (Some New)) (sample_object "a.txt" bytes20) CRC32 = Ok s
            /\ String.length s = 8.
Proof.
  destruct (Hash_CRC32_is_hex (zip_fs "" "" (Some New)) (sample_object "a.txt" bytes20)
              New eq_refl) as (s & Hs & Hlen & _).
  by exists s.
Defined.

(** ** More on the namespace build *)

Lemma kept_trimRoot (root remote : string) :
  kept root remote = false <-> trimRoot root remote = None.
Proof.
  rewrite trimRoot_None. unfold kept.
  destruct (String.eqb_spec root ""); simpl; [by split; [| intros [? _]] |].
  by split; [| intros [_ ?]].
Qed.

Section more_loop_facts.
Context {E T : Type} `{Remoter T}.
Variables (path : E -> string) (isDir : E -> bool) (modTime : E -> Z)
  (mk : string -> E -> T).

Lemma loop_filter root entries dt :
  build_loop path isDir modTime mk root entries dt
  = build_loop path isDir modTime mk root
      (List.filter (fun entry => kept root (path entry)) entries) dt.
Proof.
  revert dt. induction entries as [| x rest IH]; intros dt; [done |]. simpl.
  destruct (kept root (path x)) eqn:Hkept.
  - simpl. destruct (trimRoot root (path x)) as [remote |]; [| apply IH].
    destruct (isDir x); [apply IH |].
    destruct (String.eqb remote ""); [done | apply IH].
  - apply kept_trimRoot in Hkept. rewrite Hkept. apply IH.
Qed.

Lemma loop_well_placed root entries dt :
  well_placed dt -> well_placed (build_loop path isDir modTime mk root entries dt).1.
Proof.
  revert dt. induction entries as [| x rest IH]; intros dt Hwp; [done |]. simpl.
  destruct (trimRoot root (path x)) as [remote |]; [| by apply IH].
  destruct (isDir x); [by apply IH, well_placed_AddDir |].
  destruct (String.eqb remote "").
  - simpl. apply well_placed_Add, well_placed_New.
  - by apply IH, well_placed_Add.
Qed.

Lemma root_file_or_not root (entries : list E) :
  (exists x, x ∈ entries /\ is_root_file path isDir root x = true)
  \/ (forall x, x ∈ entries -> is_root_file path isDir root x = false).
Proof.
  induction entries as [| y rest [(x & Hin & Hx) | Hnone]].
  - right. by intros ? ?%elem_of_nil.
  - left. exists x. split; [by right | done].
  - destruct (is_root_file path isDir root y) eqn:Hy.
    + left. exists y. split; [by left | done].
    + right. by intros x [-> | Hin]%elem_of_cons; [| apply Hnone].
Qed.

(** The loop ends with [singleObject] set exactly when some entry is a
    root file. *)
Lemma loop_flag_iff root entries dt :
  (build_loop path isDir modTime mk root entries dt).2 = true
  <-> exists x, x ∈ entries /\ is_root_file path isDir root x = true.
Proof.
  split.
  - intros Hflag. destruct (root_file_or_not root entries) as [? | Hnone]; [done |].
    assert (Hfalse : (build_loop path isDir modTime mk root entries dt).2 = false).
    { clear Hflag. revert dt. induction entries as [| x rest IH]; intros dt; [done |].
      assert (Hx : is_root_file path isDir root x = false) by (apply Hnone; by left).
      assert (Hrest : forall y, y ∈ rest -> is_root_file path isDir root y = false)
        by (intros y Hy; apply Hnone; by right).
      simpl. unfold is_root_file in Hx.
      destruct (trimRoot root (path x)) as [remote |]; [| by apply IH].
      destruct (isDir x); [by apply IH |].
      destruct (String.eqb_spec remote "") as [-> |]; [| by apply IH].
      by rewrite bool_decide_eq_true_2 in Hx. }
    congruence.
  - intros Hex.
    destruct (first_root_file path isDir root entries Hex)
      as (pre & entry & post & -> & Hentry & Hpre).
    by rewrite (loop_root_file path isDir modTime mk root pre entry post dt Hpre Hentry).
Qed.

(** Every object of the tree the loop ends with was in the tree before
    or is made from a file entry at its path under [root], or from the
    root file. *)
Lemma loop_objects root entries dt (o : T) :
  in_tree (build_loop path isDir modTime mk root entries dt).1 (EObj o) ->
  in_tree dt (EObj o)
  \/ exists entry remote,
       entry ∈ entries /\ isDir entry = false /\ o = mk remote entry
       /\ ((trimRoot root (path entry) = Some remote /\ remote <> "")
           \/ (trimRoot root (path entry) = Some "" /\ remote = Base root)).
Proof.
  revert dt. induction entries as [| x rest IH]; intros dt; simpl; [by left |].
  assert (Hlater : forall dt',
    (in_tree dt' (EObj o) -> in_tree dt (EObj o)
       \/ exists entry remote,
            entry ∈ x :: rest /\ isDir entry = false /\ o = mk remote entry
            /\ ((trimRoot root (path entry) = Some remote /\ remote <> "")
                \/ (trimRoot root (path entry) = Some "" /\ remote = Base root))) ->
    in_tree (build_loop path isDir modTime mk root rest dt').1 (EObj o) ->
    in_tree dt (EObj o)
    \/ exists entry remote,
         entry ∈ x :: rest /\ isDir entry = false /\ o = mk remote entry
         /\ ((trimRoot root (path entry) = Some remote /\ remote <> "")
             \/ (trimRoot root (path entry) = Some "" /\ remote = Base root))).
  { intros dt' Hdt' Hin. destruct (IH dt' Hin) as [Hold | (entry & remote & He & Hrest)].
    - by apply Hdt'.
    - right. exists entry, remote. split; [by right | done]. }
  destruct (trimRoot root (path x)) as [remote |] eqn:Htrim.
  - destruct (isDir x) eqn:Hdir.
    + apply Hlater. intros [[_ [=]] | Hold]%in_tree_AddDir. by left.
    + destruct (String.eqb_spec remote "") as [-> | Hne].
      * simpl. intros [[= ->] | Hnew]%in_tree_Add; [| by apply in_tree_New in Hnew].
        right. exists x, (Base root). split; [by left |]. split_and!; [done | done |].
        by right.
      * apply Hlater. intros [[= ->] | Hold]%in_tree_Add; [| by left].
        right. exists x, remote. split; [by left |]. split_and!; [done | done |].
        by left.
  - apply Hlater. by left.
Qed.

End more_loop_facts.

(** ** [New] on an archive *)

(** X7. On an archive file of known size that opens and decodes, the zip
    [New] returns an adapter holding the whole built tree, with
    [prefixSlash = prefix + "/"] and an idle writer; it returns
    [fs.ErrorIsFile] with it exactly when some file entry of the archive
    has the empty path under [prefix] and [root]. *)
Theorem zip_New_reads_archive now (n : Node zip.File) zrFile remote prefix root :
  node_IsDir n = false -> (0 <= node_Size n)%Z -> node_Open n = None ->
  node_entries n = Ok zrFile ->
  exists f err,
    zip.New now (StatFound n) remote prefix root = Ok (f, err)
    /\ zip.f_dt f = Some (zip.buildZip now prefix root zrFile).1
    /\ zip.f_prefix f = prefix /\ zip.f_prefixSlash f = prefix ++ "/"
    /\ zip.f_root f = root /\ zip.f_remote f = remote /\ zip.f_zw f = None
    /\ (err = Some ErrorIsFile \/ err = None)
    /\ (err = Some ErrorIsFile
        <-> exists file, file ∈ zrFile
              /\ is_root_file (zip.entryPath prefix) zip_isDir root file = true).
Proof.
  intros Hdir Hsize Hopen Hentries.
  unfold zip.New, zip.readZip. rewrite Hdir. cbn -[zip.buildZip Z.ltb].
  rewrite Hopen, Hentries.
  destruct (Z.ltb_spec (node_Size n) 0); [lia |].
  pose proof (loop_flag_iff (zip.entryPath prefix) zip_isDir zip_modTime zip.mkObject
                root zrFile New) as Hflag.
  rewrite <- zip_loop_shared in Hflag.
  change (zip.readZip_loop prefix root zrFile New).2
    with (zip.buildZip now prefix root zrFile).2 in Hflag.
  destruct (zip.buildZip now prefix root zrFile) as [dt [|]]; simpl in *;
    eexists _, _; (split; [reflexivity |]); simpl; split_and!; try done.
  - by left.
  - split; [intros _; by apply Hflag | done].
  - by right.
  - split; [done | by intros ?%Hflag].
Qed.

Lemma zip_New_reads_archive_witness :
  exists f, zip.New 0 (StatFound (sample_node [sample_file "a/b.txt" [x00]]))
              "test.zip" "" "a/b.txt" = Ok (f, Some ErrorIsFile).
Proof.
  destruct (zip_New_reads_archive 0 (sample_node [sample_file "a/b.txt" [x00]])
              [sample_file "a/b.txt" [x00]] "test.zip" "" "a/b.txt")
    as (f & err & Hnew & _ & _ & _ & _ & _ & _ & _ & Hiff);
    [reflexivity | simpl; lia | reflexivity | reflexivity |].
  exists f. rewrite Hnew. f_equal. f_equal. apply Hiff.
  exists (sample_file "a/b.txt" [x00]). split; [by left | reflexivity].
Defined.

(** X8. The same for squashfs, on the entries the walk of the archive
    visits. *)
Theorem squashfs_New_reads_archive now (n : Node squashfs.WalkEntry) walk rd
  remote prefix root :
  node_IsDir n = false -> (0 <= node_Size n)%Z -> node_Open n = None ->
  node_entries n = Ok walk ->
  exists f err,
    squashfs.New now (StatFound n) rd remote prefix root = Ok (f, err)
    /\ squashfs.f_dt f = Some (squashfs.buildSquashfs now prefix root walk).1
    /\ squashfs.f_prefix f = prefix /\ squashfs.f_prefixSlash f = prefix ++ "/"
    /\ squashfs.f_root f = root /\ squashfs.f_remote f = remote
    /\ (err = Some ErrorIsFile \/ err = None)
    /\ (err = Some ErrorIsFile
        <-> exists d, d ∈ walk
              /\ is_root_file (squashfs.entryPath prefix) squashfs.we_IsDir root d = true).
Proof.
  intros Hdir Hsize Hopen Hentries.
  unfold squashfs.New, squashfs.readSquashfs. rewrite Hdir.
  cbn -[squashfs.buildSquashfs Z.ltb]. rewrite Hopen, Hentries.
  cbn -[squashfs.buildSquashfs Z.ltb].
  destruct (Z.ltb_spec (node_Size n) 0); [lia |].
  pose proof (loop_flag_iff (squashfs.entryPath prefix) squashfs.we_IsDir
                squashfs.we_ModTime squashfs.mkObject root walk New) as Hflag.
  rewrite <- squashfs_loop_shared in Hflag.
  change (squashfs.readSquashfs_loop prefix root walk New).2
    with (squashfs.buildSquashfs now prefix root walk).2 in Hflag.
  destruct (squashfs.buildSquashfs now prefix root walk) as [dt [|]]; simpl in *;
    eexists _, _; (split; [reflexivity |]); simpl; split_and!; try done.
  - by left.
  - split; [intros _; by apply Hflag | done].
  - by right.
  - split; [done | by intros ?%Hflag].
Qed.

Lemma squashfs_New_reads_archive_witness :
  exists f err, squashfs.New 0 (StatFound (sample_node [sample_walk "a" true 0;
                                                         sample_walk "a/b.txt" false 1]))
              (squashfs.f_rd sample_sq_fs) "test.sqfs" "" "" = Ok (f, err).
Proof.
  destruct (squashfs_New_reads_archive 0
              (sample_node [sample_walk "a" true 0; sample_walk "a/b.txt" false 1])
              [sample_walk "a" true 0; sample_walk "a/b.txt" false 1]
              (squashfs.f_rd sample_sq_fs) "test.sqfs" "" "")
    as (f & err & Hnew & _);
    [reflexivity | simpl; lia | reflexivity | reflexivity |].
  by exists f, err.
Defined.

(** X9. [New] returns an error, and no adapter, when the stat fails for
    another reason than a missing file and when the remote is a
    directory; the zip [New] also when the archive's size is unknown,
    when it cannot be opened and when it cannot be decoded; the squashfs
    [New] also when the archive cannot be opened, when no reader can be
    made of it, and when its size is unknown. *)
Theorem New_fails now remote prefix root rd :
  (forall zstat : StatResult zip.File,
     (exists e, zstat = StatFailed e)
     \/ (exists n, zstat = StatFound n
           /\ (node_IsDir n = true \/ (node_Size n < 0)%Z
               \/ (exists e, node_Open n = Some e)
               \/ (exists e, node_entries n = Err e))) ->
     exists e, zip.New now zstat remote prefix root = Err e)
  /\ (forall sstat : StatResult squashfs.WalkEntry,
        (exists e, sstat = StatFailed e)
        \/ (exists n, sstat = StatFound n
              /\ (node_IsDir n = true
                  \/ (exists e, node_Open n = Some e)
                  \/ (exists e, node_entries n = Err e)
                  \/ ((node_Size n < 0)%Z /\ exists walk, node_entries n = Ok walk))) ->
        exists e, squashfs.New now sstat rd remote prefix root = Err e).
Proof.
  split.
  - intros zstat [[e ->] | (n & -> & Hbad)]; [by eexists |].
    unfold zip.New, zip.readZip. cbn -[zip.buildZip Z.ltb].
    destruct (node_IsDir n); [by eexists |].
    destruct Hbad as [? | Hbad]; [done |].
    destruct (Z.ltb_spec (node_Size n) 0); [by eexists |].
    destruct Hbad as [? | [[e He] | [e He]]]; [lia | |].
    + rewrite He. by eexists.
    + rewrite He. destruct (node_Open n); by eexists.
  - intros sstat [[e ->] | (n & -> & Hbad)]; [by eexists |].
    unfold squashfs.New, squashfs.readSquashfs. cbn -[squashfs.buildSquashfs Z.ltb].
    destruct (node_IsDir n); [by eexists |].
    destruct Hbad as [? | Hbad]; [done |].
    destruct (node_Open n) as [e |] eqn:Hopen; [by eexists |].
    destruct Hbad as [[e He] | [[e He] | (Hsize & walk & Hwalk)]]; [done | |].
    + rewrite He. by eexists.
    + rewrite Hwalk. cbn -[squashfs.buildSquashfs Z.ltb].
      destruct (Z.ltb_spec (node_Size n) 0); [by eexists | lia].
Qed.

Lemma New_fails_witness :
  exists e, zip.New 0 (StatFound {| node_IsDir := true; node_Size := 0;
                                    node_Open := None; node_entries := Ok [] |})
              "dir" "" "" = Err e.
Proof.
  destruct (New_fails 0 "dir" "" "" (squashfs.f_rd sample_sq_fs)) as [Hzip _].
  apply Hzip. right. eexists. split; [reflexivity |]. by left.
Defined.

(** ** What the tree holds *)

(** X10. Entries whose path under [prefix] does not start with a
    non-empty [root] have no part in the build: the tree and the flag are
    those of the archive without them; in both backends. *)
Theorem build_ignores_outside_root now prefix root zrFile walk :
  zip.buildZip now prefix root zrFile
  = zip.buildZip now prefix root
      (List.filter (fun file => kept root (zip.entryPath prefix file)) zrFile)
  /\ squashfs.buildSquashfs now prefix root walk
     = squashfs.buildSquashfs now prefix root
         (List.filter (fun d => kept root (squashfs.entryPath prefix d)) walk).
Proof.
  unfold zip.buildZip, squashfs.buildSquashfs.
  rewrite !zip_loop_shared, !squashfs_loop_shared.
  by rewrite <- !loop_filter.
Qed.

Section built_tree_facts.
Context {E T : Type} `{Remoter T}.
Variables (path : E -> string) (isDir : E -> bool) (modTime : E -> Z)
  (mk : string -> E -> T).
Hypothesis mk_remote : forall remote entry, Remote (mk remote entry) = remote.

Lemma built_well_placed now root entries :
  well_placed (Sort (CheckParents now ""
                       (build_loop path isDir modTime mk root entries New).1)).
Proof.
  apply well_placed_Sort.
  by apply CheckParents_spec, loop_well_placed, well_placed_New.
Qed.

Lemma built_objects now root entries (o : T) :
  in_tree (Sort (CheckParents now ""
                   (build_loop path isDir modTime mk root entries New).1)) (EObj o) ->
  exists entry remote,
    entry ∈ entries /\ isDir entry = false /\ o = mk remote entry
    /\ ((trimRoot root (path entry) = Some remote /\ remote <> "")
        \/ (trimRoot root (path entry) = Some "" /\ remote = Base root)).
Proof.
  intros Hin. rewrite in_tree_Sort in Hin.
  destruct (CheckParents_spec now "" (build_loop path isDir modTime mk root entries New).1)
    as (_ & _ & _ & Honly & _); [by apply loop_well_placed, well_placed_New |].
  destruct (Honly _ Hin) as [Hloop | ?]; [| done].
  destruct (loop_objects path isDir modTime mk root entries New o Hloop)
    as [Hnew | ?]; [by apply in_tree_New in Hnew | done].
Qed.

(** An accepted entry is in the list of its parent directory, and the
    scan for its path finds an entry with that path. *)
Lemma built_listed now root entries entry remote :
  (build_loop path isDir modTime mk root entries New).2 = false ->
  entry ∈ entries -> trimRoot root (path entry) = Some remote -> remote <> "" ->
  let dt := Sort (CheckParents now ""
                    (build_loop path isDir modTime mk root entries New).1) in
  (exists es, dt !! parentDir remote = Some es
              /\ entry_of isDir modTime mk remote entry ∈ es)
  /\ exists e, (Find dt remote).2 = Some e /\ entry_Remote e = remote /\ in_tree dt e.
Proof.
  intros Hflag Hin Htrim Hne dt.
  destruct (build_parents path isDir modTime mk mk_remote now root entries entry remote 1
              Hflag Hin Htrim Hne) as [Htree _]; [done |].
  pose proof (built_well_placed now root entries) as Hwp.
  pose proof (in_tree_children _ _ Hwp Htree) as Hchild.
  rewrite (entry_of_Remote isDir modTime mk mk_remote) in Hchild.
  split; [by apply elem_of_children |].
  destruct (Find dt remote).2 as [e |] eqn:Hfind.
  - apply Find_Some in Hfind as [He Heq]. exists e.
    split_and!; [done | done | by eapply children_in_tree].
  - eapply Find_None in Hfind; [| exact Hchild].
    by rewrite (entry_of_Remote isDir modTime mk mk_remote) in Hfind.
Qed.

End built_tree_facts.

(** X11. Every object of the tree [readZip] builds is made from a file
    record of the archive, at that record's path under [prefix] and
    [root] (or at the base name of [root] for the root file), and
    carries that record's header and content; likewise for squashfs. *)
Theorem tree_objects_come_from_archive now prefix root zrFile walk :
  (forall o, in_tree (zip.buildZip now prefix root zrFile).1 (EObj o) ->
     exists file,
       file ∈ zrFile /\ zip_isDir file = false
       /\ zip.o_file o = Some file /\ zip.o_fh o = zip.file_FileHeader file
       /\ ((trimRoot root (zip.entryPath prefix file) = Some (zip.o_remote o)
            /\ zip.o_remote o <> "")
           \/ (trimRoot root (zip.entryPath prefix file) = Some ""
               /\ zip.o_remote o = Base root)))
  /\ (forall o, in_tree (squashfs.buildSquashfs now prefix root walk).1 (EObj o) ->
        exists d,
          d ∈ walk /\ squashfs.we_IsDir d = false
          /\ squashfs.o_filePath o = squashfs.we_filePath d
          /\ squashfs.o_size o = squashfs.we_Size d
          /\ ((trimRoot root (squashfs.entryPath prefix d) = Some (squashfs.o_remote o)
               /\ squashfs.o_remote o <> "")
              \/ (trimRoot root (squashfs.entryPath prefix d) = Some ""
                  /\ squashfs.o_remote o = Base root))).
Proof.
  unfold zip.buildZip, squashfs.buildSquashfs.
  rewrite zip_loop_shared, squashfs_loop_shared. simpl.
  split; intros o Hin.
  - destruct (built_objects _ _ _ _ now root zrFile o Hin)
      as (file & remote & Hfile & Hdir & -> & Hpath).
    exists file. by split_and!.
  - destruct (built_objects _ _ _ _ now root walk o Hin)
      as (d & remote & Hd & Hdir & -> & Hpath).
    exists d. by split_and!.
Qed.

(** X12. When the build is not the single-object case, every entry it
    accepts at a non-empty path is listed by [List] under its parent
    directory, and [NewObject] at its path answers an object with that
    path or, when a directory with that path is met first, not-a-file:
    never not-found. *)
Theorem accepted_entries_are_found now prefix root zrFile (f : zip.Fs) file p :
  zip.f_dt f = Some (zip.buildZip now prefix root zrFile).1 ->
  (zip.buildZip now prefix root zrFile).2 = false ->
  file ∈ zrFile -> trimRoot root (zip.entryPath prefix file) = Some p -> p <> "" ->
  (exists es, zip.List f (parentDir p) = Ok es
              /\ entry_of zip_isDir zip_modTime zip.mkObject p file ∈ es)
  /\ ((exists o, zip.NewObject f p = Ok o /\ zip.o_remote o = p)
      \/ zip.NewObject f p = Err ErrorNotAFile).
Proof.
  intros Hdt Hflag Hin Htrim Hne.
  assert (Htree : (zip.buildZip now prefix root zrFile).1
                  = Sort (CheckParents now ""
                      (build_loop (zip.entryPath prefix) zip_isDir zip_modTime
                         zip.mkObject root zrFile New).1))
    by (unfold zip.buildZip; by rewrite zip_loop_shared).
  assert (Hflag' : (build_loop (zip.entryPath prefix) zip_isDir zip_modTime
                      zip.mkObject root zrFile New).2 = false)
    by (unfold zip.buildZip in Hflag; by rewrite zip_loop_shared in Hflag).
  destruct (built_listed (zip.entryPath prefix) zip_isDir zip_modTime zip.mkObject
              ltac:(done) now root zrFile file p Hflag' Hin Htrim Hne)
    as ((es & Hes & Hentry) & (e & Hfind & Hremote & _)).
  rewrite <- Htree in Hes, Hfind.
  unfold zip.List, zip.NewObject. rewrite Hdt, Hes, Hfind.
  split; [by exists es |].
  destruct e as [d | o]; [by right |]. left. by exists o.
Qed.

Lemma accepted_entries_are_found_witness :
  let files := [sample_file "a/b.txt" [x00]; sample_file "a/c/d.txt" [x01]] in
  let f := zip_fs "" "" (Some (zip.buildZip 0 "" "" files).1) in
  exists es, zip.List f "a/c" = Ok es
             /\ EObj (zip.mkObject "a/c/d.txt" (sample_file "a/c/d.txt" [x01])) ∈ es.
Proof.
  intros files f.
  destruct (accepted_entries_are_found 0 "" "" files f (sample_file "a/c/d.txt" [x01])
              "a/c/d.txt") as [Hlist _].
  - reflexivity.
  - reflexivity.
  - apply elem_of_cons. right. by left.
  - reflexivity.
  - discriminate.
  - exact Hlist.
Defined.

Lemma CheckParents_empty {T} `{Remoter T} now root :
  Sort (CheckParents now root (New : DirTree T)) = ∅.
Proof.
  unfold CheckParents, New. rewrite map_to_list_empty. simpl.
  unfold Sort. apply fmap_empty.
Qed.

Lemma filter_none {A} (P : A -> bool) (l : list A) :
  (forall x, x ∈ l -> P x = false) -> List.filter P l = [].
Proof.
  induction l as [| y l IH]; intros Hnone; [done |]. simpl.
  rewrite (Hnone y) by (by left). apply IH. intros x Hx. apply Hnone. by right.
Qed.

(** X13. When no entry of the archive has a path that starts with
    [root], and so for an archive without entries, the tree has no
    directory at all, not even the root: [List] fails with
    directory-not-found on every path, [NewObject] with not-found, and
    the build is not the single-object case. *)
Theorem nothing_under_root now prefix root zrFile (f : zip.Fs) :
  (forall file, file ∈ zrFile -> kept root (zip.entryPath prefix file) = false) ->
  zip.f_dt f = Some (zip.buildZip now prefix root zrFile).1 ->
  zip.buildZip now prefix root zrFile = (∅, false)
  /\ (forall dir, zip.List f dir = Err ErrorDirNotFound)
  /\ (forall p, zip.NewObject f p = Err ErrorObjectNotFound).
Proof.
  intros Hnone Hdt.
  assert (Hbuild : zip.buildZip now prefix root zrFile = (∅, false)).
  { unfold zip.buildZip. rewrite zip_loop_shared, loop_filter.
    rewrite (filter_none _ zrFile Hnone). simpl.
    by rewrite CheckParents_empty. }
  split; [done |]. rewrite Hbuild in Hdt. simpl in Hdt.
  unfold zip.List, zip.NewObject, Find, children. rewrite Hdt.
  split; intros x; by rewrite lookup_empty.
Qed.

Lemma nothing_under_root_witness :
  zip.List (zip_fs "" "" (Some (zip.buildZip 0 "" "" []).1)) "" = Err ErrorDirNotFound
  /\ zip.buildZip 0 "" "x" [sample_file "a/b.txt" [x00]] = (∅, false).
Proof.
  destruct (nothing_under_root 0 "" "" [] (zip_fs "" "" (Some (zip.buildZip 0 "" "" []).1)))
    as (_ & Hlist & _); [by intros ? ?%elem_of_nil | reflexivity |].
  destruct (nothing_under_root 0 "" "x" [sample_file "a/b.txt" [x00]]
              (zip_fs "" "x" (Some (zip.buildZip 0 "" "x" [sample_file "a/b.txt" [x00]]).1)))
    as (Hbuild & _).
  - intros file Hfile. apply elem_of_cons in Hfile as [-> | Hfile]; [reflexivity |].
    by apply elem_of_nil in Hfile.
  - reflexivity.
  - split; [apply Hlist | exact Hbuild].
Defined.

(** X14. In the single-object case, when the base name of [root] has no
    slash, the adapter shows one directory, the root, holding one file:
    [List] of the root answers that file alone, [List] of any other path
    fails, and [NewObject] at the base name of [root] answers the
    file. *)
Theorem single_object_queries now prefix root zrFile (f : zip.Fs) :
  zip.f_dt f = Some (zip.buildZip now prefix root zrFile).1 ->
  (exists file, file ∈ zrFile
     /\ is_root_file (zip.entryPath prefix) zip_isDir root file = true) ->
  has_slash (Base root) = false ->
  exists file,
    file ∈ zrFile
    /\ is_root_file (zip.entryPath prefix) zip_isDir root file = true
    /\ zip.List f "" = Ok [EObj (zip.mkObject (Base root) file)]
    /\ (forall dir, dir <> "" -> zip.List f dir = Err ErrorDirNotFound)
    /\ zip.NewObject f (Base root) = Ok (zip.mkObject (Base root) file).
Proof.
  intros Hdt Hex Hslash.
  destruct (build_single (zip.entryPath prefix) zip_isDir zip_modTime zip.mkObject
              ltac:(done) now root zrFile Hex)
    as (file & Hin & Hroot & _ & _ & _ & _ & Hexact).
  specialize (Hexact Hslash).
  assert (Htree : (zip.buildZip now prefix root zrFile).1
                  = {[ "" := [EObj (zip.mkObject (Base root) file)] ]})
    by (unfold zip.buildZip; by rewrite zip_loop_shared).
  rewrite Htree in Hdt.
  exists file. unfold zip.List, zip.NewObject, Find, children. rewrite Hdt.
  split_and!; [done | done | by rewrite lookup_singleton_eq | |].
  - intros dir Hdir. by rewrite lookup_singleton_ne.
  - rewrite (parentDir_no_slash _ Hslash), lookup_singleton_eq. simpl.
    change (Remote (zip.mkObject (Base root) file)) with (Base root).
    by rewrite String.eqb_refl.
Qed.

Lemma single_object_queries_witness :
  let files := [sample_file "a/c/d.txt" [x01]; sample_file "a/b.txt" [x00]] in
  let f := zip_fs "" "a/b.txt" (Some (zip.buildZip 0 "" "a/b.txt" files).1) in
  exists file, zip.NewObject f "b.txt" = Ok (zip.mkObject "b.txt" file).
Proof.
  intros files f.
  destruct (single_object_queries 0 "" "a/b.txt" files f)
    as (file & _ & _ & _ & _ & Hobj).
  - reflexivity.
  - exists (sample_file "a/b.txt" [x00]). split; [| reflexivity].
    apply elem_of_cons. right. by left.
  - reflexivity.
  - by exists file.
Defined.

(** ** More on [Put] *)

Lemma files_write_chunks_ne h cs w path :
  path <> h -> zip.files (zip.write_chunks h cs w) !! path = zip.files w !! path.
Proof. intros Hne. unfold zip.write_chunks. simpl. by rewrite lookup_insert_ne. Qed.

(** X15. [Put] writes to the destination only: every other file of the
    wrapped filesystem is left as it was, whatever the outcome; the
    encoder stays bound to the adapter's remote, and the fields of the
    read side (tree, node, prefix, root, remote) are not touched. *)
Theorem Put_touches_only_destination env w f (in_ : Reader) src :
  session_ok f ->
  let r := zip.Put env w f in_ src in
  session_ok r.1.2
  /\ (forall path, path <> zip.f_remote f ->
        zip.files r.1.1 !! path = zip.files w !! path)
  /\ zip.f_dt r.1.2 = zip.f_dt f /\ zip.f_node r.1.2 = zip.f_node f
  /\ zip.f_prefix r.1.2 = zip.f_prefix f /\ zip.f_root r.1.2 = zip.f_root f
  /\ zip.f_remote r.1.2 = zip.f_remote f.
Proof.
  intros Hok. unfold zip.Put.
  destruct (src_Size src <? 0)%Z; [by split_and! |].
  destruct (zip.f_zw f) as [zw |] eqn:Hzw.
  - pose proof (Hok zw Hzw) as Hhandle.
    destruct (zip.env_CreateHeader env); [simpl; by split_and! |].
    cbn -[zip.header_at GoIO.CopyN]. rewrite Hhandle.
    destruct (GoIO.CopyN in_ (src_Size src)).2; simpl;
      (split_and!; try done;
       [ by intros zw' [= <-]
       | intros path Hpath; by rewrite !lookup_insert_ne by done ]).
  - destruct (zip.env_OpenFile env); [simpl; by split_and! |].
    destruct (zip.env_CreateHeader env).
    { simpl. split_and!; try done.
      - by intros zw' [= <-].
      - intros path Hpath. by rewrite lookup_insert_ne. }
    cbn -[zip.header_at GoIO.CopyN].
    destruct (GoIO.CopyN in_ (src_Size src)).2; simpl;
      (split_and!; try done;
       [ by intros zw' [= <-]
       | intros path Hpath; by rewrite !lookup_insert_ne by done ]).
Qed.

Lemma Put_touches_only_destination_witness :
  zip.files (zip.Put calm stale_world (fresh_zip_fs "other.zip") [x00] (source "a" 1)).1.1
    !! "test.zip" = Some [zip.Stale x50; zip.Stale x4b].
Proof.
  destruct (Put_touches_only_destination calm stale_world (fresh_zip_fs "other.zip")
              [x00] (source "a" 1)) as (_ & Hframe & _).
  - by intros zw.
  - by rewrite Hframe.
Defined.

Lemma put_all_read_side reqs w f :
  zip.f_dt (put_all reqs w f).1.2 = zip.f_dt f.
Proof.
  revert w f. induction reqs as [| req reqs IH]; intros w f; [done |].
  simpl. rewrite IH. unfold zip.Put.
  destruct (src_Size (req_src req) <? 0)%Z; [done |].
  destruct (zip.f_zw f), (zip.env_OpenFile (req_env req)),
    (zip.env_CreateHeader (req_env req)); simpl; try done;
    by destruct (Z.of_nat (length (req_in req)) <? src_Size (req_src req))%Z.
Qed.

(** X16. What a session writes never shows on the adapter that writes
    it: after any series of puts on an adapter that read no archive,
    [NewObject] still answers not-found for every path, [List]
    directory-not-found, and [Hash] the empty CRC32. *)
Theorem puts_are_not_listed reqs w f path (o : zip.Object) :
  zip.f_dt f = None ->
  let f' := (put_all reqs w f).1.2 in
  zip.NewObject f' path = Err ErrorObjectNotFound
  /\ zip.List f' path = Err ErrorDirNotFound
  /\ zip.Hash f' o CRC32 = Ok "".
Proof.
  intros Hdt. simpl.
  unfold zip.NewObject, zip.List, zip.Hash.
  by rewrite put_all_read_side, Hdt.
Qed.

Lemma puts_are_not_listed_witness :
  zip.NewObject
    (put_all [{| req_env := calm; req_in := [x00]; req_src := source "a.txt" 1 |}]
       empty_world (fresh_zip_fs "test.zip")).1.2 "a.txt"
  = Err ErrorObjectNotFound.
Proof.
  by destruct (puts_are_not_listed
                 [{| req_env := calm; req_in := [x00]; req_src := source "a.txt" 1 |}]
                 empty_world (fresh_zip_fs "test.zip") "a.txt"
                 (sample_object "a.txt" [x00]) eq_refl) as [Hobj _].
Defined.

Lemma Put_complete w f (in_ : Reader) src :
  (0 <= src_Size src <= Z.of_nat (length in_))%Z ->
  (zip.Put calm w f in_ src).2
  = Ok {| zip.o_remote := src_Remote src; zip.o_fh := put_header src;
          zip.o_file := None |}.
Proof.
  intros Hsize. unfold zip.Put, GoIO.CopyN.
  destruct (Z.ltb_spec (src_Size src) 0); [lia |].
  destruct (Z.ltb_spec (Z.of_nat (length in_)) (src_Size src)); [lia |].
  destruct (zip.f_zw f) as [zw |]; simpl; f_equal; f_equal;
    unfold zip.header_at; simpl;
    rewrite list_lookup_alter_eq, lookup_app_r, Nat.sub_diag by lia; done.
Qed.

(** X17. An accepted put returns an object with the remote, size and
    time of its source and with the method chosen from the size; the
    object has no archive entry behind it, so [Open] on it panics. *)
Theorem Put_object w f (in_ : Reader) src options :
  (0 <= src_Size src <= Z.of_nat (length in_))%Z ->
  exists o, (zip.Put calm w f in_ src).2 = Ok o
            /\ zip.o_remote o = src_Remote src
            /\ zip.Size o = src_Size src
            /\ zip.ModTime o = src_ModTime src
            /\ zip.fh_Method (zip.o_fh o) = chosen_method (src_Size src)
            /\ zip.Open o options = Panic.
Proof.
  intros Hsize. eexists. split; [by apply Put_complete |]. by split_and!.
Qed.

Lemma Put_object_witness :
  exists o, (zip.Put calm empty_world (fresh_zip_fs "test.zip") bytes20 (source "a" 20)).2
            = Ok o /\ zip.Size o = 20%Z.
Proof.
  destruct (Put_object empty_world (fresh_zip_fs "test.zip") bytes20 (source "a" 20) [])
    as (o & Ho & _ & Hsize & _); [simpl; lia |].
  by exists o.
Defined.

(** ** A series of puts *)

Lemma alter_last {A} (g : A -> A) (l : list A) (x : A) :
  alter g (length l) (l ++ [x])%list = (l ++ [g x])%list.
Proof.
  replace (length l) with (length l + 0) by lia.
  by rewrite alter_app_r.
Qed.

(** One accepted put, step by step: a header is allocated, its pointer
    joins the directory, and nothing else of the session moves. *)
Lemma Put_complete_step w f (in_ : Reader) src :
  (0 <= src_Size src <= Z.of_nat (length in_))%Z ->
  let r := zip.Put calm w f in_ src in
  zip.heap r.1.1 = (zip.heap w ++ [put_header src])%list
  /\ match zip.f_zw f with
     | Some zw =>
         zip.opened r.1.1 = zip.opened w /\ zip.atexit r.1.1 = zip.atexit w
         /\ exists zw', zip.f_zw r.1.2 = Some zw'
              /\ zip.zw_dir zw' = (zip.zw_dir zw ++ [length (zip.heap w)])%list
              /\ zip.zw_handle zw' = zip.zw_handle zw
              /\ zip.zw_last zw' = Some zip.Store
              /\ zip.zw_count zw' = src_Size src
     | None =>
         zip.opened r.1.1 = (zip.opened w ++ [zip.f_remote f])%list
         /\ zip.atexit r.1.1 = S (zip.atexit w)
         /\ exists zw', zip.f_zw r.1.2 = Some zw'
              /\ zip.zw_dir zw' = [length (zip.heap w)]
              /\ zip.zw_handle zw' = zip.f_remote f
              /\ zip.zw_last zw' = Some zip.Store
              /\ zip.zw_count zw' = src_Size src
     end.
Proof.
  intros Hsize. unfold zip.Put, GoIO.CopyN.
  destruct (Z.ltb_spec (src_Size src) 0); [lia |].
  destruct (Z.ltb_spec (Z.of_nat (length in_)) (src_Size src)); [lia |].
  assert (Hlen : Z.of_nat (length (take (Z.to_nat (src_Size src)) in_)) = src_Size src).
  { rewrite length_take. lia. }
  destruct (zip.f_zw f) as [zw |]; cbn -[Z.of_nat take];
    unfold zip.header_at; cbn -[Z.of_nat take];
    rewrite ?lookup_app_r, ?Nat.sub_diag by lia; cbn -[Z.of_nat take];
    (split; [by rewrite alter_last |]); split_and!; try done;
    eexists; split_and!; try done; simpl; lia.
Qed.

Lemma header_at_app (w w' : zip.World) (hs : list zip.FileHeader) (p : nat) :
  zip.heap w' = (zip.heap w ++ hs)%list -> p < length (zip.heap w) ->
  zip.header_at w' p = zip.header_at w p.
Proof. intros Hheap Hp. unfold zip.header_at. by rewrite Hheap, lookup_app_l. Qed.

Lemma header_at_new (w w' : zip.World) (h : zip.FileHeader) :
  zip.heap w' = (zip.heap w ++ [h])%list ->
  zip.header_at w' (length (zip.heap w)) = h.
Proof.
  intros Hheap. unfold zip.header_at.
  by rewrite Hheap, lookup_app_r, Nat.sub_diag by lia.
Qed.

(** On an open session, a series of accepted puts adds one header to the
    directory per put, in order, and opens nothing. *)
Lemma put_all_open reqs w f zw :
  zip.f_zw f = Some zw ->
  Forall complete reqs ->
  Forall (fun p => p < length (zip.heap w)) (zip.zw_dir zw) ->
  let r := put_all reqs w f in
  zip.opened r.1.1 = zip.opened w /\ zip.atexit r.1.1 = zip.atexit w
  /\ map returned_remote r.2 = map (fun req => Some (src_Remote (req_src req))) reqs
  /\ exists zw', zip.f_zw r.1.2 = Some zw'
       /\ zip.zw_handle zw' = zip.zw_handle zw
       /\ map (fun p => header_id (zip.header_at r.1.1 p)) (zip.zw_dir zw')
          = (map (fun p => header_id (zip.header_at w p)) (zip.zw_dir zw)
             ++ map source_id reqs)%list.
Proof.
  revert w f zw. induction reqs as [| req reqs IH]; intros w f zw Hzw Hall Hptr.
  { simpl. split_and!; try done. exists zw. by rewrite app_nil_r. }
  apply Forall_cons in Hall as [[Henv Hsize] Hall].
  cbn [put_all]. rewrite Henv.
  destruct (Put_complete_step w f (req_in req) (req_src req) Hsize) as [Hheap Hstep].
  rewrite Hzw in Hstep.
  destruct Hstep as (Hopened & Hatexit & zw1 & Hzw1 & Hdir1 & Hhandle1 & _).
  destruct (IH (zip.Put calm w f (req_in req) (req_src req)).1.1
              (zip.Put calm w f (req_in req) (req_src req)).1.2 zw1 Hzw1 Hall)
    as (Hopened' & Hatexit' & Hres & zw' & Hzw' & Hh & Hmap).
  { rewrite Hdir1, Hheap, length_app. simpl.
    apply Forall_app. split; [| apply Forall_singleton; lia].
    eapply Forall_impl; [exact Hptr |]. simpl. lia. }
  simpl. split_and!; [congruence | congruence | |].
  - by rewrite Hres, (Put_complete w f _ _ Hsize).
  - exists zw'. split_and!; [done | congruence |].
    rewrite Hmap, Hdir1, map_app. simpl. rewrite <- app_assoc. simpl.
    f_equal; [| by rewrite (header_at_new w _ _ Hheap)].
    apply map_ext_in. intros p Hp. f_equal.
    apply (header_at_app w _ _ p Hheap).
    by apply (proj1 (Forall_forall _ _) Hptr), list_elem_of_In.
Qed.

(** X18. A series of accepted puts on an idle adapter opens the
    destination once and registers one exit hook; every put returns an
    object with the remote of its source; the encoder's directory holds
    one header per put, in the order of the puts, each with the name and
    time of its source and the method chosen from the size; and closing
    the encoder ends the destination with one central record per put, in
    that order. *)
Theorem puts_fill_directory req reqs w f :
  zip.f_zw f = None ->
  Forall complete (req :: reqs) ->
  let r := put_all (req :: reqs) w f in
  zip.opened r.1.1 = (zip.opened w ++ [zip.f_remote f])%list
  /\ zip.atexit r.1.1 = S (zip.atexit w)
  /\ map returned_remote r.2
     = map (fun req => Some (src_Remote (req_src req))) (req :: reqs)
  /\ exists zw, zip.f_zw r.1.2 = Some zw
       /\ map (fun p => header_id (zip.header_at r.1.1 p)) (zip.zw_dir zw)
          = map source_id (req :: reqs)
       /\ exists before,
            zip.files (zip.Close zw r.1.1) !! zip.f_remote f
            = Some (before ++
                    map (fun req => zip.CentralHeader (src_Remote (req_src req))
                                      (chosen_method (src_Size (req_src req))))
                        (req :: reqs))%list.
Proof.
  intros Hzw Hall.
  apply Forall_cons in Hall as [[Henv Hsize] Hall].
  cbn [put_all]. rewrite Henv.
  destruct (Put_complete_step w f (req_in req) (req_src req) Hsize) as [Hheap Hstep].
  rewrite Hzw in Hstep.
  destruct Hstep as (Hopened & Hatexit & zw1 & Hzw1 & Hdir1 & Hhandle1 & _).
  destruct (put_all_open reqs (zip.Put calm w f (req_in req) (req_src req)).1.1
              (zip.Put calm w f (req_in req) (req_src req)).1.2 zw1 Hzw1 Hall)
    as (Hopened' & Hatexit' & Hres & zw' & Hzw' & Hh & Hmap).
  { rewrite Hdir1, Hheap, length_app. simpl. apply Forall_singleton. lia. }
  rewrite Hdir1 in Hmap. simpl in Hmap.
  rewrite (header_at_new w _ _ Hheap) in Hmap.
  change (header_id (put_header (req_src req)) :: map source_id reqs)
    with (map source_id (req :: reqs)) in Hmap.
  simpl. split_and!; [congruence | congruence | |].
  - by rewrite Hres, (Put_complete w f _ _ Hsize).
  - exists zw'. split_and!; [done | done |].
    unfold zip.Close, zip.write_chunks. simpl.
    rewrite Hh, Hhandle1, lookup_insert_eq.
    eexists. rewrite app_assoc. f_equal. f_equal.
    transitivity
      (map (fun id : string * zip.Method * Z => zip.CentralHeader id.1.1 id.1.2)
         (map (fun p =>
                 header_id
                   (zip.header_at
                      (put_all reqs (zip.Put calm w f (req_in req) (req_src req)).1.1
                         (zip.Put calm w f (req_in req) (req_src req)).1.2).1.1 p))
              (zip.zw_dir zw'))); [by rewrite map_map |].
    rewrite Hmap. by rewrite map_map.
Qed.

Lemma puts_fill_directory_witness :
  let reqs := [{| req_env := calm; req_in := bytes20; req_src := source "big.bin" 20 |};
               {| req_env := calm; req_in := [x00]; req_src := source "small.bin" 1 |}] in
  zip.opened (put_all reqs stale_world (fresh_zip_fs "test.zip")).1.1 = ["test.zip"].
Proof.
  intros reqs.
  destruct (puts_fill_directory
              {| req_env := calm; req_in := bytes20; req_src := source "big.bin" 20 |}
              [{| req_env := calm; req_in := [x00]; req_src := source "small.bin" 1 |}]
              stale_world (fresh_zip_fs "test.zip")) as (Hopened & _).
  - reflexivity.
  - repeat constructor; simpl; lia.
  - exact Hopened.
Defined.

(** X19. When [OpenFile] fails on an idle session, [Put] returns the
    error wrapped, writes nothing and leaves the session idle, so that
    the next accepted put opens the destination again. *)
Theorem Put_open_failure env w f (in_ in2 : Reader) src src2 e :
  zip.f_zw f = None -> (0 <= src_Size src)%Z -> zip.env_OpenFile env = Some e ->
  (0 <= src_Size src2 <= Z.of_nat (length in2))%Z ->
  let r := zip.Put env w f in_ src in
  r.2 = Err (Wrap "zip put: failed to open output file" e)
  /\ r.1.2 = f
  /\ zip.files r.1.1 = zip.files w /\ zip.heap r.1.1 = zip.heap w
  /\ zip.atexit r.1.1 = zip.atexit w
  /\ zip.opened r.1.1 = (zip.opened w ++ [zip.f_remote f])%list
  /\ zip.opened (zip.Put calm r.1.1 r.1.2 in2 src2).1.1
     = (zip.opened w ++ [zip.f_remote f; zip.f_remote f])%list.
Proof.
  intros Hzw Hsize Hopen Hsize2.
  assert (Hput : zip.Put env w f in_ src
                 = (zip.OpenFile_failed (zip.f_remote f) w, f,
                    Err (Wrap "zip put: failed to open output file" e))).
  { unfold zip.Put. rewrite Hzw, Hopen.
    by destruct (Z.ltb_spec (src_Size src) 0); [lia |]. }
  simpl. rewrite Hput. simpl. split_and!; try done.
  destruct (Put_complete_step (zip.OpenFile_failed (zip.f_remote f) w) f in2 src2 Hsize2)
    as [_ Hstep].
  rewrite Hzw in Hstep. destruct Hstep as (-> & _). simpl.
  by rewrite <- app_assoc.
Qed.

Lemma Put_open_failure_witness :
  (zip.Put {| zip.env_OpenFile := Some ErrNotExist; zip.env_CreateHeader := None |}
     stale_world (fresh_zip_fs "test.zip") [x00] (source "a" 1)).2
  = Err (Wrap "zip put: failed to open output file" ErrNotExist).
Proof.
  destruct (Put_open_failure
              {| zip.env_OpenFile := Some ErrNotExist; zip.env_CreateHeader := None |}
              stale_world (fresh_zip_fs "test.zip") [x00] [x00] (source "a" 1)
              (source "a" 1) ErrNotExist) as (Herr & _);
    [reflexivity | simpl; lia | reflexivity | simpl; lia |].
  exact Herr.
Defined.

(** ** More on the root filter and the tree *)

(** X20. For a non-empty [root], the filter maps the path [root] to the
    empty path and a path [root/rest] to [rest]. *)
Theorem trimRoot_under_root (root rest : string) :
  root <> "" ->
  trimRoot root root = Some ""
  /\ trimRoot root (root ++ String "/" rest) = Some rest.
Proof. apply trimRoot_inside. Qed.

Lemma trimRoot_under_root_witness :
  trimRoot "a/c" "a/c" = Some "" /\ trimRoot "a/c" "a/c/d.txt" = Some "d.txt".
Proof. by apply (trimRoot_under_root "a/c" "d.txt"). Defined.

(** X21. In the tree of either backend every entry, file or directory,
    explicit or synthesized, sits in the list of its own parent
    directory. *)
Theorem built_trees_are_well_placed now prefix root zrFile walk :
  well_placed (zip.buildZip now prefix root zrFile).1
  /\ well_placed (squashfs.buildSquashfs now prefix root walk).1.
Proof.
  unfold zip.buildZip, squashfs.buildSquashfs.
  rewrite zip_loop_shared, squashfs_loop_shared. simpl.
  split; apply built_well_placed.
Qed.

(** X22. What [NewObject] answers on an adapter that read an archive is
    an object of that archive: it has the asked path, it is made from a
    file record of the archive, and opening it without options gives
    what opening that record gives. *)
Theorem resolved_object_reads_entry now prefix root zrFile (f : zip.Fs) p o :
  zip.f_dt f = Some (zip.buildZip now prefix root zrFile).1 ->
  zip.NewObject f p = Ok o ->
  zip.o_remote o = p
  /\ exists file, file ∈ zrFile /\ zip_isDir file = false
       /\ zip.o_fh o = zip.file_FileHeader file
       /\ zip.Open o [] = zip.file_Open file.
Proof.
  intros Hdt Hobj. unfold zip.NewObject in Hobj. rewrite Hdt in Hobj.
  destruct (Find (zip.buildZip now prefix root zrFile).1 p).2 as [[d | o'] |] eqn:Hfind;
    try done.
  injection Hobj as ->.
  apply Find_Some in Hfind as [Hchild Hremote].
  split; [done |].
  apply children_in_tree in Hchild.
  unfold zip.buildZip in Hchild. rewrite zip_loop_shared in Hchild. simpl in Hchild.
  destruct (built_objects _ _ _ _ now root zrFile o Hchild)
    as (file & remote & Hfile & Hdir & -> & _).
  exists file. split_and!; [done | done | done |].
  unfold zip.Open, zip.openAt. simpl. by destruct (zip.file_Open file).
Qed.

Lemma resolved_object_reads_entry_witness :
  let files := [sample_file "a/b.txt" [x00]; sample_file "a/c/d.txt" [x01; x02]] in
  let f := zip_fs "" "" (Some (zip.buildZip 0 "" "" files).1) in
  exists o, zip.NewObject f "a/c/d.txt" = Ok o /\ zip.o_remote o = "a/c/d.txt".
Proof.
  intros files f.
  exists (zip.mkObject "a/c/d.txt" (sample_file "a/c/d.txt" [x01; x02])).
  assert (Hobj : zip.NewObject f "a/c/d.txt"
                 = Ok (zip.mkObject "a/c/d.txt" (sample_file "a/c/d.txt" [x01; x02])))
    by (vm_compute; reflexivity).
  split; [exact Hobj |].
  by destruct (resolved_object_reads_entry 0 "" "" files f "a/c/d.txt" _ eq_refl Hobj).
Defined.

Lemma tree_objects_come_from_archive_witness :
  let files := [sample_file "a/b.txt" [x00]; sample_file "a/c/d.txt" [x01]] in
  exists file, file ∈ files
    /\ zip.o_file (zip.mkObject "a/b.txt" (sample_file "a/b.txt" [x00])) = Some file.
Proof.
  intros files.
  destruct (tree_objects_come_from_archive 0 "" "" files []) as [Hzip _].
  destruct (Hzip (zip.mkObject "a/b.txt" (sample_file "a/b.txt" [x00])))
    as (file & Hin & _ & Hfile & _).
  - exists "a". eexists. split; [reflexivity |]. by left.
  - by exists file.
Defined.

(** ** Which entry [NewObject] answers by *)



Section named_entries.
Context {E T : Type} `{Remoter T}.
Variables (path : E -> string) (isDir : E -> bool) (modTime : E -> Z)
  (mk : string -> E -> T).
Hypothesis mk_remote : forall remote entry, Remote (mk remote entry) = remote.
Implicit Types (dt : DirTree T) (e : DirEntry T) (st : DirTree T * gset string).






End named_entries.



